(** * textnet: bootstrap nearest-neighbour networks

    A shallow embedding of [textnet/bootstrap_network.py] and the
    properties of its estimator, its grouped distance computation and its
    graph builders.

    Conventions of the embedding.
    - A NumPy [float64] is a value of [float64] below: a finite number, the
      two infinities or NaN.  Finite numbers are exact rationals; rounding
      is not modelled.  Comparisons and subtraction follow IEEE 754 on the
      special values.
    - A 2-D array is a list of rows.
    - Exceptions are values of [exn]; a function that can raise returns a
      [result].
    - The global random generator and the progress bar are the two
      components of the [world] threaded through the estimator. *)

From Stdlib Require Import ZArith QArith Qabs Lia.
From stdpp Require Import base option list sorting gmap sets strings.

Local Open Scope Z_scope.
Local Open Scope nat_scope.

Abbreviation matrix A := (list (list A)).

(** ** IEEE special values *)

Inductive float64 : Type :=
  | Fin (q : Q)
  | PInf
  | NInf
  | NaN.

Definition isnan (x : float64) : bool :=
  match x with NaN => true | _ => false end.

(** [a < b] *)
Definition fltb (a b : float64) : bool :=
  match a, b with
  | NaN, _ | _, NaN => false
  | Fin x, Fin y => negb (Qle_bool y x)
  | _, NInf => false
  | NInf, _ => true
  | PInf, _ => false
  | Fin _, PInf => true
  end.

(** [a <= b] *)
Definition fleb (a b : float64) : bool :=
  match a, b with
  | NaN, _ | _, NaN => false
  | Fin x, Fin y => Qle_bool x y
  | NInf, _ => true
  | _, PInf => true
  | _, _ => false
  end.

(** [a >= b] *)
Definition fgeb (a b : float64) : bool := fleb b a.

(** [a == b] *)
Definition feqb (a b : float64) : bool :=
  match a, b with
  | Fin x, Fin y => Qeq_bool x y
  | PInf, PInf | NInf, NInf => true
  | _, _ => false
  end.

(** [a - b] *)
Definition fsub (a b : float64) : float64 :=
  match a, b with
  | NaN, _ | _, NaN => NaN
  | Fin x, Fin y => Fin (x - y)
  | PInf, PInf | NInf, NInf => NaN
  | PInf, _ => PInf
  | NInf, _ => NInf
  | Fin _, PInf => NInf
  | Fin _, NInf => PInf
  end.

(** [np.abs] *)
Definition fabs (a : float64) : float64 :=
  match a with
  | Fin x => Fin (Qabs x)
  | PInf | NInf => PInf
  | NaN => NaN
  end.

(** [c / n] for a tally [c] and an iteration count [n], both whole
    numbers: [0/0] is NaN and [c/0] is [inf], as NumPy's true division
    gives (with a warning, not an exception). *)
Definition fdiv_count (c n : nat) : float64 :=
  match n with
  | O => match c with O => NaN | S _ => PInf end
  | S _ => Fin (Z.of_nat c # Pos.of_nat n)
  end.

Definition fzero : float64 := Fin 0.
Definition fone : float64 := Fin 1.

(** The closed interval [[0, 1]]. *)
Definition in_unit (x : float64) : bool := fleb fzero x && fleb x fone.

(** ** Exceptions *)

Inductive exn : Type :=
  | ValueError (msg : string)
  | TypeError (msg : string)
  | IndexError (msg : string).

Inductive result (A : Type) : Type :=
  | Ok (a : A)
  | Raise (e : exn).
Arguments Ok {A} a.
Arguments Raise {A} e.

Definition rbind {A B} (r : result A) (k : A -> result B) : result B :=
  match r with
  | Ok a => k a
  | Raise e => Raise e
  end.

#[global] Instance result_ret : MRet result := fun A a => Ok a.
#[global] Instance result_bind : MBind result := fun A B k r => rbind r k.

Fixpoint rfold {A B} (f : A -> B -> result A) (a : A) (l : list B) : result A :=
  match l with
  | [] => Ok a
  | b :: l' => a' ← f a b; rfold f a' l'
  end.

Fixpoint rmap {A B} (f : A -> result B) (l : list A) : result (list B) :=
  match l with
  | [] => Ok []
  | a :: l' => b ← f a; bs ← rmap f l'; Ok (b :: bs)
  end.

(** ** Timestamps *)

(** A calendar timestamp: its year and its position inside that year.
    The order is the chronological one.  (NaT is not modelled.) *)
Record Timestamp : Type := mkTs { year : Z; within : Z }.

Definition ts_leb (a b : Timestamp) : bool :=
  (year a <? year b)%Z || ((year a =? year b)%Z && (within a <=? within b)%Z).

(** ** Helpers on arrays *)

(** [X[mask]] for a boolean mask of the length of [X]. *)
Fixpoint mask_select {A} (mask : list bool) (X : list A) : list A :=
  match mask, X with
  | true :: m, x :: X' => x :: mask_select m X'
  | false :: m, _ :: X' => mask_select m X'
  | _, _ => []
  end.

(** [row[mask] = src]: the masked positions of [row] receive the entries
    of [src] in order. *)
Fixpoint assign_row {A} (row : list A) (mask : list bool) (src : list A) : list A :=
  match row, mask with
  | v :: row', true :: m =>
      match src with
      | s :: src' => s :: assign_row row' m src'
      | [] => v :: row'
      end
  | v :: row', false :: m => v :: assign_row row' m src
  | _, _ => row
  end.

(** [dm[np.ix_(xmask, ymask)] = chunk] *)
Fixpoint assign_ix {A} (dm : matrix A) (xmask ymask : list bool)
    (chunk : matrix A) : matrix A :=
  match dm, xmask with
  | r :: dm', true :: m =>
      match chunk with
      | c :: chunk' => assign_row r ymask c :: assign_ix dm' m ymask chunk'
      | [] => r :: dm'
      end
  | r :: dm', false :: m => r :: assign_ix dm' m ymask chunk
  | _, _ => dm
  end.

(** [np.unique] on integers: the distinct values in ascending order. *)
Fixpoint insert_unique (z : Z) (l : list Z) : list Z :=
  match l with
  | [] => [z]
  | y :: l' =>
      if (z <? y)%Z then z :: l
      else if (z =? y)%Z then l
      else y :: insert_unique z l'
  end.

Definition np_unique (l : list Z) : list Z := foldr insert_unique [] l.

(** [np.zeros((n, m))] *)
Definition zeros {A} (z : A) (n m : nat) : matrix A := replicate n (replicate m z).

(** ** PairwiseDistanceEngine *)

Section Engine.
Context {feat : Type}.

(** The metric, resolved: a function of the two rows it compares.
    (Metrics with parameters estimated from the whole sample are outside
    this model.) *)
Variable metric : list feat -> list feat -> float64.

(** scikit-learn's input validation: at least one row and one column. *)
Definition check_array (A : matrix feat) : result unit :=
  match A with
  | [] => Raise (ValueError "Found array with 0 sample(s)")
  | [] :: _ => Raise (ValueError "Found array with 0 feature(s)")
  | _ => Ok tt
  end.

(** [sklearn.metrics.pairwise_distances(A, Y=B, metric=metric)]: entry
    [(a, b)] is the metric of row [a] of [A] and row [b] of [B].  The
    split of the work over [n_jobs] workers does not change the values
    and is not modelled. *)
Definition pairwise_distances (A B : matrix feat) : result (matrix float64) :=
  _ ← check_array A;
  _ ← check_array B;
  Ok (map (fun a => map (metric a) B) A).

(** [year // groupby * groupby]; for a nonzero [groupby], [Z.div] is
    Python's floor division. *)
Definition bucket (groupby : Z) (t : Timestamp) : Z :=
  (year t / groupby * groupby)%Z.

(** One pass of the loop of [time_grouped_pairwise_distances]. *)
Definition grouped_step (X : matrix feat) (grouped_indices : list Z)
    (dm : matrix float64) (yr : Z) : result (matrix float64) :=
  let Y_indices := map (fun g => (g <=? yr)%Z) grouped_indices in
  let X_indices := map (fun g => (g =? yr)%Z) grouped_indices in
  if existsb id X_indices && existsb id Y_indices then
    if length grouped_indices =? length X then
      chunk_dm ← pairwise_distances (mask_select X_indices X)
                                      (mask_select Y_indices X);
      Ok (assign_ix dm X_indices Y_indices chunk_dm)
    else Raise (IndexError "boolean index did not match indexed array")
  else Ok dm.

Definition time_grouped_pairwise_distances (X : matrix feat)
    (time_index : option (list Timestamp)) (groupby : Z)
    : result (matrix float64) :=
  match time_index with
  | None => Raise (TypeError "DatetimeIndex() must be called with a collection")
  | Some time_index =>
      let dm := zeros fzero (length X) (length X) in
      let grouped_indices := map (bucket groupby) time_index in
      rfold (grouped_step X grouped_indices) dm (np_unique grouped_indices)
  end.
End Engine.

(** ** BootstrapEstimator *)

(** [np.fill_diagonal(dm, v)] *)
Definition fill_diagonal {A} (v : A) (dm : matrix A) : matrix A :=
  imap (fun i row => <[i:=v]> row) dm.

(** [dm[~potential_neighbors] = np.nan]; a boolean index must have the
    shape of the array it indexes (both are square here). *)
Definition mask_nan (potential_neighbors : matrix bool) (dm : matrix float64)
    : result (matrix float64) :=
  if length potential_neighbors =? length dm then
    Ok (zip_with (zip_with (fun (p : bool) d => if p then d else NaN))
                 potential_neighbors dm)
  else Raise (IndexError "boolean index did not match indexed array").

(** [np.fmin]: the smaller of two numbers, a NaN giving way to the other. *)
Definition fmin (a b : float64) : float64 :=
  if isnan a then b else if isnan b then a else if fltb b a then b else a.

(** [np.nanmin] of one row; NaN when every entry is NaN. *)
Definition nanmin_row (row : list float64) : float64 := foldr fmin NaN row.

Definition default_tol : float64 := Fin (1 # 1000).

(** [all_argmin(array, tol)]: the index pairs [np.where] returns, in
    row-major order. *)
Definition all_argmin (array : matrix float64) (tol : float64) : list (nat * nat) :=
  concat (imap (fun i row =>
    let m := nanmin_row row in
    omap id (imap (fun j v =>
      if fltb (fabs (fsub v m)) tol then Some (i, j) else None) row)) array).

(** The scan of [np.argmin] over one row, started at its first entry
    [mp]: a later entry replaces the current minimum when it is not
    [>=] to it, and a NaN ends the scan. *)
Fixpoint argmin_from (mp : float64) (bi i : nat) (l : list float64) : nat :=
  match l with
  | [] => bi
  | x :: l' =>
      if isnan mp then bi
      else if negb (fgeb x mp) then argmin_from x i (S i) l'
      else argmin_from mp bi (S i) l'
  end.

Definition np_argmin (l : list float64) : result nat :=
  match l with
  | [] => Raise (ValueError "attempt to get argmin of an empty sequence")
  | x :: l' => Ok (argmin_from x 0 1 l')
  end.

(** The scan of [np.argmax], symmetric to [argmin_from]. *)
Fixpoint argmax_from (mp : float64) (bi i : nat) (l : list float64) : nat :=
  match l with
  | [] => bi
  | x :: l' =>
      if isnan mp then bi
      else if negb (fleb x mp) then argmax_from x i (S i) l'
      else argmax_from mp bi (S i) l'
  end.

Definition np_argmax (l : list float64) : result nat :=
  match l with
  | [] => Raise (ValueError "attempt to get argmax of an empty sequence")
  | x :: l' => Ok (argmax_from x 0 1 l')
  end.

Definition replace_nan (v : float64) : float64 := if isnan v then PInf else v.

(** [np.nanargmin] of one row: NaN is replaced by [inf], an all-NaN row
    raises, otherwise the arg-min of the replaced row. *)
Definition nanargmin_row (row : list float64) : result nat :=
  if (0 <? length row) && forallb isnan row
  then Raise (ValueError "All-NaN slice encountered")
  else np_argmin (map replace_nan row).

(** [np.nanargmin(dm, axis=1)] *)
Definition nanargmin (dm : matrix float64) : result (list nat) :=
  rmap nanargmin_row dm.

(** [neighbors[idx] += 1] for a list of index pairs: every listed cell is
    read, incremented and written back once. *)
Definition incr_at (idx : list (nat * nat)) (neighbors : matrix nat) : matrix nat :=
  imap (fun i row =>
    imap (fun j c => if bool_decide ((i, j) ∈ idx) then S c else c) row) neighbors.

(** [X[:, rnd_features]] *)
Definition take_columns {A} (X : matrix A) (cols : list nat) : result (matrix A) :=
  rmap (fun row =>
    rmap (fun c => match row !! c with
                   | Some v => Ok v
                   | None => Raise (IndexError "index is out of bounds")
                   end) cols) X.

(** [int(x)]: truncation towards zero. *)
Definition Qtrunc (x : Q) : Z := Z.quot (Qnum x) (Zpos (Qden x)).

(** [time_index <= time_index[np.newaxis].T]: entry [(i, j)] tells whether
    item [j] is not later than item [i]. *)
Definition causal_mask (time_index : list Timestamp) : matrix bool :=
  map (fun t_i => map (fun t_j => ts_leb t_j t_i) time_index) time_index.

Section Estimator.
Context {feat rng_state : Type}.

Variable metric : list feat -> list feat -> float64.

(** [np.random.randint(high, size=size)] on the global generator: the
    draws (or the exception) and the generator's next state. *)
Variable randint : Z -> Z -> rng_state -> result (list nat) * rng_state.

(** What the estimator reads and writes outside its arguments: the
    state of the global generator and the number of updates the progress
    bar has received. *)
Record world : Type := mkWorld { rng : rng_state; ticks : nat }.

(** [dist_fn], as the two [partial] applications build it. *)
Definition dist_fn (grouped_pairwise : bool)
    (time_index : option (list Timestamp)) (groupby : Z)
    (_X : matrix feat) : result (matrix float64) :=
  if grouped_pairwise
  then time_grouped_pairwise_distances metric _X time_index groupby
  else pairwise_distances metric _X _X.

(** The body of the loop between the draw and the progress update. *)
Definition tally_step (X : matrix feat)
    (time_index : option (list Timestamp))
    (all_min grouped_pairwise : bool) (groupby : Z)
    (neighbors : matrix nat) (rnd_features : list nat)
    : result (matrix nat) :=
  _X ← take_columns X rnd_features;
  dm ← dist_fn grouped_pairwise time_index groupby _X;
  let dm := fill_diagonal PInf dm in
  dm ← match time_index with
       | Some ti => mask_nan (causal_mask ti) dm
       | None => Ok dm
       end;
  if all_min then
    Ok (incr_at (all_argmin dm default_tol) neighbors)
  else
    args ← nanargmin dm;
    Ok (incr_at (zip (seq 0 (length X)) args) neighbors).

(** One iteration: draw, tally, report progress. *)
Definition iteration (X : matrix feat)
    (time_index : option (list Timestamp))
    (all_min grouped_pairwise : bool) (groupby : Z)
    (n_features sample_size : Z)
    (neighbors : matrix nat) (w : world) : result (matrix nat) * world :=
  let '(drawn, g) := randint n_features sample_size (rng w) in
  match rnd_features ← drawn;
        tally_step X time_index all_min grouped_pairwise groupby
                   neighbors rnd_features with
  | Ok neighbors' => (Ok neighbors', mkWorld g (S (ticks w)))
  | Raise e => (Raise e, mkWorld g (ticks w))
  end.

(** [for iteration in range(n_iter)] *)
Fixpoint bootstrap_loop (X : matrix feat)
    (time_index : option (list Timestamp))
    (all_min grouped_pairwise : bool) (groupby : Z)
    (n_features sample_size : Z) (n_iter : nat)
    (neighbors : matrix nat) (w : world) : result (matrix nat) * world :=
  match n_iter with
  | O => (Ok neighbors, w)
  | S k =>
      match iteration X time_index all_min grouped_pairwise groupby
                      n_features sample_size neighbors w with
      | (Ok neighbors', w') =>
          bootstrap_loop X time_index all_min grouped_pairwise groupby
                         n_features sample_size k neighbors' w'
      | (Raise e, w') => (Raise e, w')
      end
  end.

(** [bootstrap_neighbors].  [X.shape] is the number of rows and the
    length of the first row.  The tally holds whole numbers and is kept in
    [nat]; [sigma] and [return_dist] are accepted and not used, as in the
    source. *)
Definition bootstrap_neighbors (X : matrix feat)
    (time_index : option (list Timestamp)) (sigma : float64)
    (sample_prop : Q) (n_iter : nat) (return_dist : bool)
    (all_min grouped_pairwise : bool) (groupby : Z)
    (w : world) : result (matrix float64) * world :=
  let n_samples := length X in
  let n_features := Z.of_nat (length (hd [] X)) in
  let sample_size := Qtrunc (inject_Z n_features * sample_prop) in
  let neighbors := zeros O n_samples n_samples in
  match bootstrap_loop X time_index all_min grouped_pairwise groupby
                       n_features sample_size n_iter neighbors w with
  | (Ok neighbors, w') =>
      (Ok (map (map (fun c => fdiv_count c n_iter)) neighbors), w')
  | (Raise e, w') => (Raise e, w')
  end.
End Estimator.

(** ** DirectedGraph *)

(** What a node carries: nothing, or a [date] attribute (which may be
    [None]). *)
Inductive node_data : Type :=
  | NoData
  | Date (d : option Timestamp).

(** A [networkx.DiGraph]: its nodes with their data and its set of
    directed edges. *)
Record DiGraph : Type := mkGraph {
  nodes : gmap nat node_data;
  edges : gset (nat * nat)
}.

Definition empty_graph : DiGraph := mkGraph ∅ ∅.

(** [G.add_node(n, date=d)]: creates the node or overwrites its date. *)
Definition add_node (n : nat) (d : option Timestamp) (G : DiGraph) : DiGraph :=
  mkGraph (<[n := Date d]> (nodes G)) (edges G).

Definition touch_node (n : nat) (ns : gmap nat node_data) : gmap nat node_data :=
  match ns !! n with
  | Some _ => ns
  | None => <[n := NoData]> ns
  end.

(** [G.add_edge(u, v)]: both ends are created when missing. *)
Definition add_edge (u v : nat) (G : DiGraph) : DiGraph :=
  mkGraph (touch_node v (touch_node u (nodes G))) ({[ (u, v) ]} ∪ edges G).

(** The [time_index] argument of [to_graph]: the default [False], [None],
    or a sequence of timestamps. *)
Inductive time_arg : Type :=
  | TFalse
  | TNone
  | TIndex (time_index : list Timestamp).

(** [time_index[i] if time_index is not False else None] *)
Definition date_of (time_index : time_arg) (i : nat) : result (option Timestamp) :=
  match time_index with
  | TFalse => Ok None
  | TNone => Raise (TypeError "'NoneType' object is not subscriptable")
  | TIndex ti =>
      match ti !! i with
      | Some t => Ok (Some t)
      | None => Raise (IndexError "index is out of bounds")
      end
  end.

(** [np.where(neighbors >= sigma)[0]] *)
Definition where_ge (row : list float64) (sigma : float64) : list nat :=
  omap id (imap (fun j v => if fgeb v sigma then Some j else None) row).

(** The body of [for neighbor in neighbors]. *)
Definition link (time_index : time_arg) (i : nat) (G : DiGraph)
    (neighbor : nat) : result DiGraph :=
  d ← date_of time_index neighbor;
  Ok (add_edge i neighbor (add_node neighbor d G)).

(** ** GraphBuilder *)

(** The neighbours kept for one row: the arg-max when it reaches [sigma]
    ([only_best]), or every column that reaches [sigma]. *)
Definition kept_neighbors (sigma : float64) (only_best : bool)
    (neighbors : list float64) : result (list nat) :=
  if only_best then
    best ← np_argmax neighbors;
    match neighbors !! best with
    | Some v => Ok (if fgeb v sigma then [best] else [])
    | None => Raise (IndexError "index is out of bounds")
    end
  else Ok (where_ge neighbors sigma).

Definition to_graph_row (time_index : time_arg) (sigma : float64)
    (only_best : bool) (G : DiGraph) (i : nat) (row : list float64)
    : result DiGraph :=
  d ← date_of time_index i;
  let G := add_node i d G in
  neighbors ← kept_neighbors sigma only_best row;
  rfold (link time_index i) G neighbors.

(** [for i, neighbors in enumerate(choices)], from index [i] on. *)
Fixpoint to_graph_rows (time_index : time_arg) (sigma : float64)
    (only_best : bool) (i : nat) (rows : matrix float64) (G : DiGraph)
    : result DiGraph :=
  match rows with
  | [] => Ok G
  | row :: rows' =>
      G' ← to_graph_row time_index sigma only_best G i row;
      to_graph_rows time_index sigma only_best (S i) rows' G'
  end.

Definition to_graph (choices : matrix float64) (time_index : time_arg)
    (sigma : float64) (only_best : bool) : result DiGraph :=
  to_graph_rows time_index sigma only_best 0 choices empty_graph.

(** ** EvolvingGraphGenerator *)

(** [sort_index()]: the rows in ascending order of their timestamp.
    Rows with equal timestamps keep their order here; pandas does not
    promise an order among them. *)
Fixpoint insert_by_time {A} (x : Timestamp * A) (l : list (Timestamp * A))
    : list (Timestamp * A) :=
  match l with
  | [] => [x]
  | y :: l' =>
      if ts_leb (fst x) (fst y) then x :: l else y :: insert_by_time x l'
  end.

Definition sort_index {A} (df : list (Timestamp * A)) : list (Timestamp * A) :=
  foldr insert_by_time [] df.

(** [df.groupby(groupby)] with a function of the index: the groups in
    ascending order of their key, each with its rows in frame order. *)
Definition group_frame {A} (groupby : Timestamp -> Z)
    (df : list (Timestamp * A)) : list (Z * list A) :=
  map (fun key =>
         (key, map snd (filter (fun r => groupby (fst r) = key) df)))
      (np_unique (map (fun r => groupby (fst r)) df)).

(** The body of [for neighbors in stories.values], on the running
    counter [i] and the graph. *)
Definition evolve_row (time_index : list Timestamp) (sigma : float64)
    (st : nat * DiGraph) (row : list float64) : result (nat * DiGraph) :=
  let '(i, G) := st in
  let index := i in
  let neighbors := where_ge row sigma in
  d ← date_of (TIndex time_index) index;
  let G := add_node index d G in
  G ← rfold (link (TIndex time_index) index) G neighbors;
  Ok (S i, G).

(** The outer loop: one yield per group.  Every yield hands out the same
    graph object; the list records its content at the time of the yield. *)
Fixpoint evolve_groups (time_index : list Timestamp) (sigma : float64)
    (groups : list (Z * matrix float64)) (st : nat * DiGraph)
    : result (list (Z * DiGraph)) :=
  match groups with
  | [] => Ok []
  | (group_id, stories) :: rest =>
      st' ← rfold (evolve_row time_index sigma) st stories;
      later ← evolve_groups time_index sigma rest st';
      Ok ((group_id, snd st') :: later)
  end.

(** [evolving_graphs], consumed to its end. *)
Definition evolving_graphs (choices : matrix float64)
    (time_index : list Timestamp) (groupby : Timestamp -> Z)
    (sigma : float64) : result (list (Z * DiGraph)) :=
  if length choices =? length time_index then
    let choices_df := sort_index (zip time_index choices) in
    evolve_groups time_index sigma (group_frame groupby choices_df)
                  (0, empty_graph)
  else Raise (ValueError "Shape of passed values does not match the index").

(** ** The convenience wrapper *)

Section Network.
Context {feat rng_state : Type}.
Variable metric : list feat -> list feat -> float64.
Variable randint : Z -> Z -> rng_state -> result (list nat) * rng_state.

(** [len(set(labels)) != X.shape[0]], with [labels] possibly [None]. *)
Definition check_labels (labels : option (list string)) (n : nat) : result unit :=
  match labels with
  | None => Raise (TypeError "'NoneType' object is not iterable")
  | Some ls =>
      if length (remove_dups ls) =? n then Ok tt
      else Raise (ValueError
        "Number of unique labels should be equal to number of data points.")
  end.

(** [bootstrap_network]: the estimator, then the label check, then the
    replacement of a missing [labels] (whose value is not used), then the
    graph. *)
Definition bootstrap_network (X : matrix feat)
    (labels : option (list string))
    (time_index : option (list Timestamp)) (sigma : float64)
    (sample_prop : Q) (n_iter : nat) (only_best all_min : bool)
    (w : world) : result DiGraph * world :=
  match bootstrap_neighbors metric randint X time_index sigma sample_prop
                            n_iter false all_min false 5%Z w with
  | (Raise e, w') => (Raise e, w')
  | (Ok neighbors, w') =>
      (_ ← check_labels labels (length X);
       let labels : list nat + list string :=
         match labels with
         | None => inl (seq 0 (length X))
         | Some ls => inr ls
         end in
       to_graph neighbors
                (match time_index with
                 | None => TNone
                 | Some ti => TIndex ti
                 end)
                sigma only_best,
       w')
  end.
End Network.

(** ** Notions used in the statements *)

(** A cell of a 2-D array. *)
Definition cell {A} (M : matrix A) (i j : nat) : option A :=
  M !! i ≫= (fun row => row !! j).

(** A distance that can be a minimum: neither [inf] nor NaN. *)
Definition selectable (v : float64) : bool :=
  match v with
  | Fin _ | NInf => true
  | PInf | NaN => false
  end.

(** Item [j] is not later than item [i] (always so without a time index). *)
Definition comparable (time_index : option (list Timestamp)) (i j : nat) : Prop :=
  match time_index with
  | None => True
  | Some ti =>
      ∃ t_i t_j, ti !! i = Some t_i ∧ ti !! j = Some t_j ∧ ts_leb t_j t_i = true
  end.

(** Item [j] is strictly later than item [i]. *)
Definition later (time_index : option (list Timestamp)) (i j : nat) : Prop :=
  ∃ ti t_i t_j, time_index = Some ti ∧ ti !! i = Some t_i ∧ ti !! j = Some t_j
                ∧ ts_leb t_j t_i = false.

(** Among [n] items, item [i] has another item that is not later. *)
Definition has_candidate (n : nat) (time_index : option (list Timestamp))
    (i : nat) : Prop :=
  ∃ j, j ≠ i ∧ j < n ∧ comparable time_index i j.

(** Item [i] of the time index [tl] strictly precedes every other item. *)
Definition strictly_earliest (tl : list Timestamp) (i : nat) : Prop :=
  ∃ t_i, tl !! i = Some t_i
         ∧ ∀ j t_j, j ≠ i → tl !! j = Some t_j → ts_leb t_j t_i = false.

(** The metric returns a finite number on every pair of rows. *)
Definition finite_metric {feat} (metric : list feat → list feat → float64) : Prop :=
  ∀ a b, ∃ q, metric a b = Fin q.

(** The diagonal and causality masking of one iteration. *)
Definition masked (ti : option (list Timestamp)) (D : matrix float64)
    : result (matrix float64) :=
  match ti with
  | Some tl => mask_nan (causal_mask tl) (fill_diagonal PInf D)
  | None => Ok (fill_diagonal PInf D)
  end.

(** The matrix the loop has built once the buckets of [seen] have been
    processed. *)
Definition grouped_blocks {feat} (metric : list feat → list feat → float64)
    (X : matrix feat) (g seen : list Z) : matrix float64 :=
  map (fun gx =>
         map (fun gy =>
                if bool_decide (gx.1 ∈ seen) && (gy.1 <=? gx.1)%Z
                then metric gx.2 gy.2 else fzero)
             (zip g X))
      (zip g X).

(** What [bootstrap_network] does once the estimator has answered [r]
    and the label check has failed with [e]. *)
Definition after_estimator {rng_state A B} (r : result A * @world rng_state)
    (e : exn) : result B * @world rng_state :=
  match r with
  | (Ok _, w') => (Raise e, w')
  | (Raise e', w') => (Raise e', w')
  end.

Definition half : float64 := Fin (1 # 2).

(** An [n] by [n] array. *)
Definition square {A} (n : nat) (M : matrix A) : Prop :=
  length M = n ∧ Forall (fun r => length r = n) M.

(** The tally update of one iteration, from the masked distances. *)
Definition credit (n_samples : nat) (all_min : bool) (neighbors : matrix nat)
    (dm : matrix float64) : result (matrix nat) :=
  if all_min then
    Ok (incr_at (all_argmin dm default_tol) neighbors)
  else
    args ← nanargmin dm;
    Ok (incr_at (zip (seq 0 n_samples) args) neighbors).

(** Every row of the tally has sum [s]. *)
Definition row_sums (s : nat) (nb : matrix nat) : Prop :=
  Forall (fun row => sum_list row = s) nb.

(** Every node carries the date its own index has in the time index. *)
Definition dated (time_index : time_arg) (ns : gmap nat node_data) : Prop :=
  ∀ k d, ns !! k = Some d → ∃ o, date_of time_index k = Ok o ∧ d = Date o.

(** The time index has a date for every index below [n]. *)
Definition covers (time_index : time_arg) (n : nat) : Prop :=
  ∀ k, k < n → ∃ o, date_of time_index k = Ok o.

(** What a lookup past the end of the time index raises. *)
Definition out_of_bounds : exn := IndexError "index is out of bounds".

(** [G1] has no node and no edge that [G2] lacks. *)
Definition subgraph (G1 G2 : DiGraph) : Prop :=
  edges G1 ⊆ edges G2 ∧ dom (nodes G1) ⊆ dom (nodes G2).

(** The rows of [choices] in the order [evolving_graphs] visits them. *)
Definition processing_order (groupby : Timestamp → Z)
    (time_index : list Timestamp) (choices : matrix float64) : matrix float64 :=
  concat (map snd (group_frame groupby (sort_index (zip time_index choices)))).

(** The generator answers a request for [sample_size] draws below
    [n_features] with at least one draw, all of them below [n_features]
    (what [np.random.randint] does for a positive bound and size). *)
Definition draws_columns {rng_state}
    (randint : Z → Z → rng_state → result (list nat) * rng_state)
    (n_features sample_size : Z) : Prop :=
  ∀ g, ∃ cols g',
    randint n_features sample_size g = (Ok cols, g')
    ∧ cols ≠ [] ∧ Forall (fun c => (Z.of_nat c < n_features)%Z) cols.

(** ** Concrete instances used in the examples *)

(** The city-block metric on integer features. *)
Definition cityblock (a b : list Z) : float64 :=
  Fin (inject_Z (foldr Z.add 0%Z (zip_with (fun x y => Z.abs (x - y)) a b))).

(** A generator whose state is a counter: the draws are the next
    counter values reduced modulo [high]. *)
Definition counter_randint (high size : Z) (g : nat)
    : result (list nat) * nat :=
  if (size <? 0)%Z then (Raise (ValueError "negative dimensions are not allowed"), g)
  else if (size =? 0)%Z then (Ok [], g)
  else if (high <=? 0)%Z then (Raise (ValueError "high <= 0"), g)
  else (Ok (map (fun k => (g + k) mod Z.to_nat high) (seq 0 (Z.to_nat size))),
        g + Z.to_nat size).

Definition y2000 : Timestamp := mkTs 2000 0.
Definition y2001 : Timestamp := mkTs 2001 0.
Definition w0 : @world nat := mkWorld 0 0.

(** * Properties *)

Ltac rsimpl :=
  repeat (unfold mbind, mret, result_bind, result_ret, rbind in *; simpl in * ).

(** ** Arrays *)

Lemma elem_of_insert_unique (z x : Z) (l : list Z) :
  x ∈ insert_unique z l ↔ x = z ∨ x ∈ l.
Proof.
  induction l as [|y l IH]; simpl.
  - set_solver.
  - destruct (z <? y)%Z eqn:E1; [set_solver|].
    destruct (z =? y)%Z eqn:E2.
    + apply Z.eqb_eq in E2 as ->. set_solver.
    + rewrite elem_of_cons, IH, elem_of_cons. tauto.
Qed.

Lemma elem_of_np_unique (x : Z) (l : list Z) : x ∈ np_unique l ↔ x ∈ l.
Proof.
  induction l as [|y l IH]; simpl; [done|].
  rewrite elem_of_insert_unique, IH, elem_of_cons. tauto.
Qed.

Lemma assign_row_masked {A B} (P : Z → bool) (f : B → A) :
  ∀ (row : list A) (g : list Z) (Xs : list B),
    length g = length row → length Xs = length row →
    assign_row row (map P g) (map f (mask_select (map P g) Xs))
    = zip_with (fun v gx => if P gx.1 then f gx.2 else v) row (zip g Xs).
Proof.
  induction row as [|v row IH]; intros [|z g] [|x Xs] Hg HX; simpl in *;
    try done.
  destruct (P z); simpl; f_equal; apply IH; lia.
Qed.

Lemma assign_ix_masked {A B} (P : Z → bool) (ymask : list bool)
    (h : B → list A) :
  ∀ (dm : matrix A) (g : list Z) (Xs : list B),
    length g = length dm → length Xs = length dm →
    assign_ix dm (map P g) ymask (map h (mask_select (map P g) Xs))
    = zip_with (fun r gx => if P gx.1 then assign_row r ymask (h gx.2) else r)
               dm (zip g Xs).
Proof.
  induction dm as [|r dm IH]; intros [|z g] [|x Xs] Hg HX; simpl in *;
    try done.
  destruct (P z); simpl; f_equal; apply IH; lia.
Qed.

Lemma zip_with_map_diag {A B C} (G : B → A → C) (F : A → B) (l : list A) :
  zip_with G (map F l) l = map (fun x => G (F x) x) l.
Proof. induction l as [|x l IH]; simpl; [done|]. by rewrite IH. Qed.

Lemma map_const_replicate {A B} (c : B) (l : list A) :
  map (fun _ => c) l = replicate (length l) c.
Proof. induction l as [|x l IH]; simpl; [done|]. by rewrite IH. Qed.

Lemma existsb_map_true {A} (P : A → bool) (l : list A) (x : A) :
  x ∈ l → P x = true → existsb id (map P l) = true.
Proof.
  intros Hin HP. apply existsb_exists. exists true. split; [|done].
  apply in_map_iff. exists x. split; [done|]. by apply list_elem_of_In.
Qed.

Lemma fltb_not_selectable (v m tol : float64) :
  selectable v = false → fltb (fabs (fsub v m)) tol = false.
Proof. destruct v, m, tol; simpl; done. Qed.

Lemma cell_fill_diagonal {A} (v : A) (M : matrix A) (i j : nat) :
  cell (fill_diagonal v M) i j
  = (fun x => if decide (i = j) then v else x) <$> cell M i j.
Proof.
  unfold cell, fill_diagonal. rewrite list_lookup_imap.
  destruct (M !! i) as [row|]; simpl; [|done].
  destruct (decide (i = j)) as [->|Hne].
  - destruct (row !! j) as [x|] eqn:E; simpl.
    + apply list_lookup_insert_eq. by eapply lookup_lt_Some.
    + apply lookup_ge_None. rewrite length_insert. by apply lookup_ge_None.
  - rewrite list_lookup_insert_ne by done. by destruct (row !! j).
Qed.

Lemma cell_zip_with {A B C} (f : A → B → C) (M : matrix A) (N : matrix B)
    (i j : nat) :
  cell (zip_with (zip_with f) M N) i j
  = match cell M i j, cell N i j with
    | Some a, Some b => Some (f a b)
    | _, _ => None
    end.
Proof.
  unfold cell. rewrite lookup_zip_with.
  destruct (M !! i) as [r|], (N !! i) as [s|]; simpl; try done.
  - rewrite lookup_zip_with. by destruct (r !! j), (s !! j).
  - by destruct (r !! j).
Qed.

Lemma cell_causal_mask (ti : list Timestamp) (i j : nat) :
  cell (causal_mask ti) i j
  = match ti !! i, ti !! j with
    | Some t_i, Some t_j => Some (ts_leb t_j t_i)
    | _, _ => None
    end.
Proof.
  unfold cell, causal_mask. rewrite list_lookup_fmap.
  destruct (ti !! i) as [t_i|]; simpl; [|done].
  rewrite list_lookup_fmap. by destruct (ti !! j).
Qed.

Lemma cell_incr_at (idx : list (nat * nat)) (nb : matrix nat) (i j : nat) :
  cell (incr_at idx nb) i j
  = (fun c => if bool_decide ((i, j) ∈ idx) then S c else c) <$> cell nb i j.
Proof.
  unfold cell, incr_at. rewrite list_lookup_imap.
  destruct (nb !! i) as [row|]; simpl; [|done]. by rewrite list_lookup_imap.
Qed.

Lemma cell_fmap {A B} (f : A → B) (M : matrix A) (i j : nat) :
  cell (map (map f) M) i j = f <$> cell M i j.
Proof.
  unfold cell. rewrite list_lookup_fmap.
  destruct (M !! i) as [row|]; simpl; [|done]. by rewrite list_lookup_fmap.
Qed.

Lemma cell_zeros {A} (z : A) (n m i j : nat) (v : A) :
  cell (zeros z n m) i j = Some v → v = z.
Proof.
  unfold cell, zeros. intros H.
  destruct (replicate n (replicate m z) !! i) as [row|] eqn:E; [|done].
  apply lookup_replicate in E as [-> _]. simpl in H.
  by apply lookup_replicate in H as [-> _].
Qed.

Lemma rmap_lookup {A B} (f : A → result B) (l : list A) :
  ∀ bs, rmap f l = Ok bs →
    length bs = length l
    ∧ ∀ i b, bs !! i = Some b → ∃ a, l !! i = Some a ∧ f a = Ok b.
Proof.
  induction l as [|a l IH]; intros bs H; rsimpl.
  - injection H as <-. split; [done|]. intros i b Hb. by rewrite lookup_nil in Hb.
  - destruct (f a) as [b0|e] eqn:Ea; [|done].
    destruct (rmap f l) as [bs'|e]; [|done]. injection H as <-.
    destruct (IH bs' eq_refl) as [Hl Hi]. split; [simpl; lia|].
    intros [|i] b Hb; simpl in *.
    + injection Hb as <-. eauto.
    + by apply Hi.
Qed.

Lemma elem_of_all_argmin (dm : matrix float64) (tol : float64) (i j : nat) :
  (i, j) ∈ all_argmin dm tol →
  ∃ row v, dm !! i = Some row ∧ row !! j = Some v
           ∧ fltb (fabs (fsub v (nanmin_row row))) tol = true.
Proof.
  unfold all_argmin. intros H.
  apply list_elem_of_In, in_concat in H as (l & Hl & Hin).
  apply list_elem_of_In, elem_of_lookup_imap in Hl as (k & row & -> & Hk).
  apply list_elem_of_In, list_elem_of_omap in Hin as (o & Ho & Hid).
  apply elem_of_lookup_imap in Ho as (c & v & -> & Hc). simpl in Hid.
  destruct (fltb _ _) eqn:E; [|done]. injection Hid as <- <-. eauto.
Qed.

(** The arg-min scan ends on a selectable entry as soon as one exists. *)
Lemma argmin_from_selectable (l : list float64) :
  ∀ mp bi i,
    isnan mp = false → Forall (fun x => isnan x = false) l →
    selectable mp = true ∨ Exists (fun x => selectable x = true) l →
    ∃ v, selectable v = true
         ∧ ((argmin_from mp bi i l = bi ∧ v = mp)
            ∨ ∃ k, argmin_from mp bi i l = i + k ∧ l !! k = Some v).
Proof.
  induction l as [|x l IH]; intros mp bi i Hmp Hl Hsel; simpl.
  - destruct Hsel as [Hsel|Hsel]; [|by apply Exists_nil in Hsel].
    exists mp. split; [done|]. by left.
  - rewrite Hmp. apply Forall_cons in Hl as [Hx Hl].
    destruct (negb (fgeb x mp)) eqn:Elt.
    + assert (selectable x = true) as Hsx
        by (destruct x, mp; simpl in *; done).
      destruct (IH x i (S i) Hx Hl (or_introl Hsx)) as (v & Hv & [[E ->]|(k & E & Hk)]).
      * exists x. split; [done|]. right. exists 0. rewrite E. split; [lia|done].
      * exists v. split; [done|]. right. exists (S k). rewrite E. split; [lia|done].
    + assert (selectable mp = true ∨ Exists (fun x => selectable x = true) l)
        as Hsel'.
      { destruct Hsel as [Hsel|Hsel]; [by left|].
        apply Exists_cons in Hsel as [Hsx|Hsel]; [|by right].
        left. destruct x, mp; simpl in *; done. }
      destruct (IH mp bi (S i) Hmp Hl Hsel') as (v & Hv & [[E ->]|(k & E & Hk)]).
      * exists mp. split; [done|]. by left.
      * exists v. split; [done|]. right. exists (S k). rewrite E. split; [lia|done].
Qed.

Lemma nanargmin_row_selectable (row : list float64) (a j : nat) (v : float64) :
  nanargmin_row row = Ok a →
  row !! j = Some v → selectable v = true →
  ∃ v', row !! a = Some v' ∧ selectable v' = true.
Proof.
  unfold nanargmin_row. intros H Hj Hv.
  destruct ((0 <? length row) && forallb isnan row); [done|].
  assert (Forall (fun x => isnan x = false) (map replace_nan row)) as Hnn.
  { apply Forall_forall. intros x Hx. apply list_elem_of_fmap in Hx as (y & -> & _).
    by destruct y. }
  assert (Exists (fun x => selectable x = true) (map replace_nan row)) as Hex.
  { apply Exists_exists. exists v. split; [|done].
    apply list_elem_of_fmap. exists v. split; [by destruct v|].
    by eapply list_elem_of_lookup_2. }
  assert (∀ k w, map replace_nan row !! k = Some w → selectable w = true →
                 ∃ v', row !! k = Some v' ∧ selectable v' = true) as Hback.
  { intros k w Hk Hw. rewrite list_lookup_fmap in Hk.
    destruct (row !! k) as [y|]; [|done]. simpl in Hk. injection Hk as <-.
    exists y. split; [done|]. by destruct y. }
  destruct (map replace_nan row) as [|x l] eqn:E; [done|].
  simpl in H. injection H as <-.
  apply Forall_cons in Hnn as [Hx Hl].
  assert (selectable x = true ∨ Exists (fun y => selectable y = true) l) as Hsel
    by (apply Exists_cons in Hex; tauto).
  destruct (argmin_from_selectable l x 0 1 Hx Hl Hsel)
    as (w & Hw & [[Ea ->]|(k & Ea & Hk)]); rewrite Ea.
  - by apply (Hback 0 x).
  - by apply (Hback (1 + k) w).
Qed.

(** ** PairwiseDistanceEngine *)

Section EngineFacts.
Context {feat : Type}.
Variable metric : list feat -> list feat -> float64.

Lemma pairwise_distances_Ok (A B : matrix feat) (D : matrix float64) :
  pairwise_distances metric A B = Ok D →
  D = map (fun a => map (metric a) B) A.
Proof.
  unfold pairwise_distances. rsimpl.
  destruct (check_array A); [|done]. destruct (check_array B); [|done].
  by intros [= <-].
Qed.

Lemma grouped_step_blocks (X : matrix feat) (g seen : list Z) (yr : Z)
    (dm : matrix float64) :
  yr ∈ g →
  grouped_step metric X g (grouped_blocks metric X g seen) yr = Ok dm →
  length g = length X ∧ dm = grouped_blocks metric X g (yr :: seen).
Proof.
  intros Hin. unfold grouped_step.
  rewrite (existsb_map_true (fun g0 => (g0 =? yr)%Z) g yr Hin (Z.eqb_refl _)).
  rewrite (existsb_map_true (fun g0 => (g0 <=? yr)%Z) g yr Hin (Z.leb_refl _)).
  simpl. destruct (length g =? length X) eqn:El; [|done].
  apply Nat.eqb_eq in El. rsimpl.
  destruct (pairwise_distances _ _ _) as [chunk|e] eqn:Ec; [|done].
  apply pairwise_distances_Ok in Ec. intros [= <-]. split; [done|].
  subst chunk.
  rewrite (assign_ix_masked (fun g0 => (g0 =? yr)%Z) _
             (fun a => map (metric a) (mask_select (map (fun g0 => (g0 <=? yr)%Z) g) X)));
    [|unfold grouped_blocks; rewrite length_map, length_zip; lia ..].
  unfold grouped_blocks. rewrite zip_with_map_diag.
  apply map_ext. intros [gi xi]. simpl.
  destruct (gi =? yr)%Z eqn:Ey.
  - apply Z.eqb_eq in Ey as ->.
    rewrite (assign_row_masked (fun g0 => (g0 <=? yr)%Z) (metric xi));
      [|rewrite length_map, length_zip; lia ..].
    rewrite zip_with_map_diag. apply map_ext. intros [gj xj]. simpl.
    rewrite (bool_decide_eq_true_2 (yr ∈ yr :: seen)) by set_solver.
    destruct (gj <=? yr)%Z; [done|]. by rewrite andb_false_r.
  - apply Z.eqb_neq in Ey. apply map_ext. intros [gj xj]. simpl.
    rewrite (bool_decide_ext (gi ∈ yr :: seen) (gi ∈ seen)) by set_solver.
    done.
Qed.

Lemma rfold_grouped_blocks (X : matrix feat) (g : list Z) (ys : list Z) :
  ∀ seen dm,
    ys ≠ [] → (∀ y, y ∈ ys → y ∈ g) →
    rfold (grouped_step metric X g) (grouped_blocks metric X g seen) ys = Ok dm →
    length g = length X ∧ dm = grouped_blocks metric X g (reverse ys ++ seen).
Proof.
  induction ys as [|y ys IH]; intros seen dm Hne Hsub H; [done|].
  rsimpl.
  destruct (grouped_step metric X g (grouped_blocks metric X g seen) y) as [dm1|e] eqn:E;
    [|done].
  apply grouped_step_blocks in E as [Hlen ->]; [|apply Hsub; set_solver].
  split; [done|]. rewrite reverse_cons, <- app_assoc. simpl.
  destruct ys as [|y' ys'].
  - simpl in H. by injection H as <-.
  - apply IH in H as [_ ->]; [done|done|]. intros z Hz. apply Hsub. set_solver.
Qed.

Lemma cell_grouped_blocks (X : matrix feat) (g seen : list Z) (i j : nat) :
  i < length X → j < length X → length g = length X →
  ∃ v, cell (grouped_blocks metric X g seen) i j = Some v
       ∧ (v = fzero ∨ ∃ a b, v = metric a b).
Proof.
  intros Hi Hj Hl.
  destruct (lookup_lt_is_Some_2 (zip g X) i) as [gx Hgx];
    [rewrite length_zip; lia|].
  destruct (lookup_lt_is_Some_2 (zip g X) j) as [gy Hgy];
    [rewrite length_zip; lia|].
  unfold cell, grouped_blocks. rewrite list_lookup_fmap, Hgx. simpl.
  rewrite list_lookup_fmap, Hgy. simpl. eexists. split; [done|].
  destruct (_ && _); eauto.
Qed.

Lemma time_grouped_Ok (X : matrix feat) (tl : list Timestamp) (groupby : Z)
    (D : matrix float64) :
  time_grouped_pairwise_distances metric X (Some tl) groupby = Ok D →
  (tl = [] ∧ D = zeros fzero (length X) (length X))
  ∨ (length tl = length X
     ∧ D = grouped_blocks metric X (map (bucket groupby) tl)
             (reverse (np_unique (map (bucket groupby) tl)) ++ [])).
Proof.
  unfold time_grouped_pairwise_distances.
  set (g := map (bucket groupby) tl). intros H.
  destruct (np_unique g) as [|y ys] eqn:Eu.
  - left. split; [|by injection H as <-].
    destruct tl as [|t tl']; [done|].
    assert (bucket groupby t ∈ np_unique g) as Hin
      by (apply elem_of_np_unique; subst g; set_solver).
    rewrite Eu in Hin. set_solver.
  - right. rewrite <- Eu in H.
    assert (length g = length tl) as Hgl by (subst g; apply length_map).
    destruct (decide (length g = length X)) as [E|E].
    + assert (length (zip g X) = length X) as Hl by (rewrite length_zip; lia).
      assert (zeros fzero (length X) (length X) = grouped_blocks metric X g [])
        as Hz.
      { unfold zeros, grouped_blocks. rewrite <- Hl.
        rewrite <- (map_const_replicate fzero (zip g X)).
        rewrite <- (map_const_replicate _ (zip g X)).
        apply map_ext. intros gx. apply map_ext. intros gy.
        by rewrite bool_decide_eq_false_2 by set_solver. }
      rewrite Hz in H. apply rfold_grouped_blocks in H as [_ ->].
      * split; [lia|by rewrite Eu].
      * by rewrite Eu.
      * intros z. apply elem_of_np_unique.
    + exfalso. rewrite Eu in H. rsimpl. unfold grouped_step in H at 1.
      assert (y ∈ g) as Hy by (apply elem_of_np_unique; rewrite Eu; set_solver).
      rewrite (existsb_map_true (fun g0 => (g0 =? y)%Z) g y Hy (Z.eqb_refl _)),
        (existsb_map_true (fun g0 => (g0 <=? y)%Z) g y Hy (Z.leb_refl _)) in H.
      simpl in H. apply Nat.eqb_neq in E. by rewrite E in H.
Qed.

(** C6.  For a nonzero [groupby], whenever the grouped computation and the
    plain one both return, they agree on every pair [(i, j)] where the
    bucket of [j] is not later than the bucket of [i], and the grouped
    matrix is zero on every other pair. *)
Theorem time_grouped_matches_plain (X : matrix feat)
    (time_index : list Timestamp) (groupby : Z) (dm P : matrix float64) :
  groupby ≠ 0%Z →
  time_grouped_pairwise_distances metric X (Some time_index) groupby = Ok dm →
  pairwise_distances metric X X = Ok P →
  ∀ i j ti tj,
    time_index !! i = Some ti → time_index !! j = Some tj →
    ((bucket groupby tj ≤ bucket groupby ti)%Z →
       is_Some (cell dm i j) ∧ cell dm i j = cell P i j)
    ∧ ((bucket groupby ti < bucket groupby tj)%Z → cell dm i j = Some fzero).
Proof.
  intros _ Hdm HP i j ti tj Hi Hj.
  apply pairwise_distances_Ok in HP. subst P.
  apply time_grouped_Ok in Hdm as [[-> _]|[Hlen ->]]; [done|].
  set (g := map (bucket groupby) time_index).
  assert (g !! i = Some (bucket groupby ti)) as Hgi
    by (subst g; by rewrite list_lookup_fmap, Hi).
  assert (g !! j = Some (bucket groupby tj)) as Hgj
    by (subst g; by rewrite list_lookup_fmap, Hj).
  destruct (lookup_lt_is_Some_2 X i) as [xi Hxi];
    [rewrite <- Hlen; eapply lookup_lt_Some; eauto|].
  destruct (lookup_lt_is_Some_2 X j) as [xj Hxj];
    [rewrite <- Hlen; eapply lookup_lt_Some; eauto|].
  assert (zip g X !! i = Some (bucket groupby ti, xi)) as Hzi
    by (apply lookup_zip_with_Some; eauto).
  assert (zip g X !! j = Some (bucket groupby tj, xj)) as Hzj
    by (apply lookup_zip_with_Some; eauto).
  assert (cell (grouped_blocks metric X g (reverse (np_unique g) ++ [])) i j
          = Some (if (bucket groupby tj <=? bucket groupby ti)%Z
                  then metric xi xj else fzero)) as Hcell.
  { unfold cell, grouped_blocks. rewrite list_lookup_fmap, Hzi. simpl.
    rewrite list_lookup_fmap, Hzj. simpl.
    rewrite bool_decide_eq_true_2; [done|].
    rewrite app_nil_r, elem_of_reverse, elem_of_np_unique.
    eapply list_elem_of_lookup_2; eauto. }
  rewrite Hcell. split.
  - intros Hle. apply Z.leb_le in Hle. rewrite Hle. split; [by eexists|].
    unfold cell. rewrite list_lookup_fmap, Hxi. simpl.
    by rewrite list_lookup_fmap, Hxj.
  - intros Hlt. apply Z.leb_gt in Hlt. by rewrite Hlt.
Qed.
End EngineFacts.

Lemma time_grouped_matches_plain_witness :
  ∃ dm P,
    time_grouped_pairwise_distances cityblock [[1]; [2]; [4]; [8]]%Z
      (Some [mkTs 2011 0; mkTs 2001 0; mkTs 2006 0; mkTs 2000 0]) 5 = Ok dm
    ∧ pairwise_distances cityblock [[1]; [2]; [4]; [8]]%Z [[1]; [2]; [4]; [8]]%Z
      = Ok P
    ∧ cell dm 2 3 = cell P 2 3
    ∧ cell dm 1 2 = Some fzero.
Proof.
  do 2 eexists. split; [vm_compute; reflexivity|].
  split; [vm_compute; reflexivity|].
  split.
  - refine (proj2 (proj1 (time_grouped_matches_plain cityblock
             [[1]; [2]; [4]; [8]]%Z
             [mkTs 2011 0; mkTs 2001 0; mkTs 2006 0; mkTs 2000 0] 5 _ _
             _ _ _ 2 3 (mkTs 2006 0) (mkTs 2000 0) _ _) _));
      try reflexivity; try (vm_compute; congruence); try lia.
  - refine (proj2 (time_grouped_matches_plain cityblock
             [[1]; [2]; [4]; [8]]%Z
             [mkTs 2011 0; mkTs 2001 0; mkTs 2006 0; mkTs 2000 0] 5 _ _
             _ _ _ 1 2 (mkTs 2001 0) (mkTs 2006 0) _ _) _);
      try reflexivity; try (vm_compute; congruence); try lia; vm_compute; reflexivity.
Defined.

(** ** BootstrapEstimator: what does not influence the result *)

Section EstimatorFacts.
Context {feat rng_state : Type}.
Variable metric : list feat -> list feat -> float64.
Variable randint : Z -> Z -> rng_state -> result (list nat) * rng_state.

Lemma iteration_ticks_irrelevant X ti am gp gb nf ss nb (g : rng_state) t1 t2 :
  (iteration metric randint X ti am gp gb nf ss nb (mkWorld g t1)).1
  = (iteration metric randint X ti am gp gb nf ss nb (mkWorld g t2)).1
  ∧ rng (iteration metric randint X ti am gp gb nf ss nb (mkWorld g t1)).2
    = rng (iteration metric randint X ti am gp gb nf ss nb (mkWorld g t2)).2.
Proof.
  unfold iteration. simpl. destruct (randint nf ss g) as [drawn g'].
  destruct (_ ← drawn; _) as [nb'|e]; done.
Qed.

Lemma bootstrap_loop_ticks_irrelevant X ti am gp gb nf ss k :
  ∀ nb (g : rng_state) t1 t2,
    (bootstrap_loop metric randint X ti am gp gb nf ss k nb (mkWorld g t1)).1
    = (bootstrap_loop metric randint X ti am gp gb nf ss k nb (mkWorld g t2)).1
    ∧ rng (bootstrap_loop metric randint X ti am gp gb nf ss k nb
             (mkWorld g t1)).2
      = rng (bootstrap_loop metric randint X ti am gp gb nf ss k nb
               (mkWorld g t2)).2.
Proof.
  induction k as [|k IH]; intros nb g t1 t2; simpl; [done|].
  destruct (iteration_ticks_irrelevant X ti am gp gb nf ss nb g t1 t2)
    as [H1 H2].
  destruct (iteration _ _ _ _ _ _ _ _ _ _ (mkWorld g t1)) as [r1 [g1 u1]].
  destruct (iteration _ _ _ _ _ _ _ _ _ _ (mkWorld g t2)) as [r2 [g2 u2]].
  simpl in H1, H2. subst r2 g2. destruct r1 as [nb'|e]; [|done]. apply IH.
Qed.

Lemma bootstrap_loop_ticks X ti am gp gb nf ss k :
  ∀ nb (w w' : @world rng_state) nb',
    bootstrap_loop metric randint X ti am gp gb nf ss k nb w = (Ok nb', w') →
    ticks w' = ticks w + k.
Proof.
  induction k as [|k IH]; intros nb w w' nb' H; simpl in H.
  - injection H as _ <-. lia.
  - destruct (iteration _ _ _ _ _ _ _ _ _ _ w) as [[nb1|e] w1] eqn:E; [|done].
    apply IH in H. rewrite H. unfold iteration in E.
    destruct (randint nf ss (rng w)) as [drawn g'].
    destruct (_ ← drawn; _); [|done]. injection E as _ <-. simpl. lia.
Qed.

(** C8.  Two runs on the same inputs and parameters that start from the
    same state of the generator return the same matrix (or raise the same
    exception) and leave the generator in the same state, whatever the
    progress bar has received before. *)
Theorem bootstrap_neighbors_deterministic X ti sigma sample_prop n_iter
    rd am gp gb (w1 w2 : @world rng_state) :
  rng w1 = rng w2 →
  (bootstrap_neighbors metric randint X ti sigma sample_prop n_iter rd am gp
     gb w1).1
  = (bootstrap_neighbors metric randint X ti sigma sample_prop n_iter rd am
       gp gb w2).1
  ∧ rng (bootstrap_neighbors metric randint X ti sigma sample_prop n_iter rd
           am gp gb w1).2
    = rng (bootstrap_neighbors metric randint X ti sigma sample_prop n_iter
             rd am gp gb w2).2.
Proof.
  destruct w1 as [g t1], w2 as [g2 t2]. simpl. intros <-.
  unfold bootstrap_neighbors.
  match goal with
  | |- context [bootstrap_loop _ _ ?X ?ti ?am ?gp ?gb ?nf ?ss ?k ?nb _] =>
      destruct (bootstrap_loop_ticks_irrelevant X ti am gp gb nf ss k nb g
                  t1 t2) as [H1 H2];
      destruct (bootstrap_loop metric randint X ti am gp gb nf ss k nb
                  (mkWorld g t1)) as [r1 [g1 u1]];
      destruct (bootstrap_loop metric randint X ti am gp gb nf ss k nb
                  (mkWorld g t2)) as [r2 [g2 u2]]
  end.
  simpl in H1, H2. subst r2 g2. by destruct r1.
Qed.

(** C10.  [sigma] has no influence on what [bootstrap_neighbors] returns
    nor on the state it leaves. *)
Theorem bootstrap_neighbors_sigma_irrelevant X ti (sigma1 sigma2 : float64)
    sample_prop n_iter rd am gp gb (w : @world rng_state) :
  bootstrap_neighbors metric randint X ti sigma1 sample_prop n_iter rd am gp
    gb w
  = bootstrap_neighbors metric randint X ti sigma2 sample_prop n_iter rd am
      gp gb w.
Proof. reflexivity. Qed.

End EstimatorFacts.

Lemma bootstrap_neighbors_deterministic_witness :
  (bootstrap_neighbors cityblock counter_randint [[1; 5]; [2; 7]]%Z None half
     (1 # 2) 3 false false false 5%Z (mkWorld 4 0)).1
  = (bootstrap_neighbors cityblock counter_randint [[1; 5]; [2; 7]]%Z None half
       (1 # 2) 3 false false false 5%Z (mkWorld 4 9)).1.
Proof.
  exact (proj1 (bootstrap_neighbors_deterministic cityblock counter_randint
                  [[1; 5]; [2; 7]]%Z None half (1 # 2) 3 false false false 5%Z
                  (mkWorld 4 0) (mkWorld 4 9) eq_refl)).
Defined.

(** ** BootstrapEstimator: which cells are credited *)

Section CreditFacts.
Context {feat rng_state : Type}.
Variable metric : list feat -> list feat -> float64.
Variable randint : Z -> Z -> rng_state -> result (list nat) * rng_state.

Lemma dist_fn_cells (gp : bool) (ti : option (list Timestamp)) (gb : Z)
    (_X : matrix feat) (D : matrix float64) (i j : nat) :
  dist_fn metric gp ti gb _X = Ok D →
  i < length _X → j < length _X →
  ∃ v, cell D i j = Some v ∧ (v = fzero ∨ ∃ a b, v = metric a b).
Proof.
  unfold dist_fn. intros H Hi Hj. destruct gp.
  - destruct ti as [tl|]; [|done].
    apply time_grouped_Ok in H as [[_ ->]|[Hl ->]].
    + exists fzero. split; [|by left]. unfold cell, zeros.
      rewrite lookup_replicate_2 by done. simpl.
      by rewrite lookup_replicate_2.
    + apply cell_grouped_blocks; try done. by rewrite length_map.
  - apply pairwise_distances_Ok in H as ->.
    destruct (lookup_lt_is_Some_2 _X i Hi) as [a Ha].
    destruct (lookup_lt_is_Some_2 _X j Hj) as [b Hb].
    exists (metric a b). split; [|eauto].
    unfold cell. rewrite list_lookup_fmap, Ha. simpl.
    by rewrite list_lookup_fmap, Hb.
Qed.

Lemma masked_cell_excluded ti D dm i j v :
  masked ti D = Ok dm → cell dm i j = Some v →
  i = j ∨ later ti i j → selectable v = false.
Proof.
  unfold masked. intros H Hc Hex. destruct ti as [tl|].
  - unfold mask_nan in H. destruct (_ =? _); [|done]. injection H as <-.
    rewrite cell_zip_with, cell_causal_mask, cell_fill_diagonal in Hc.
    destruct (tl !! i) as [t_i|] eqn:Ei; [|done].
    destruct (tl !! j) as [t_j|] eqn:Ej; [|done].
    destruct (cell D i j) as [d|]; [|done]. simpl in Hc. injection Hc as <-.
    destruct (ts_leb t_j t_i) eqn:El; [|done].
    destruct Hex as [->|(tl' & a & b & [= <-] & Ha & Hb & Hf)].
    + by rewrite decide_True.
    + congruence.
  - injection H as <-. rewrite cell_fill_diagonal in Hc.
    destruct Hex as [->|(tl' & a & b & ? & _)]; [|done].
    destruct (cell D j j) as [d|]; [|done]. simpl in Hc.
    rewrite decide_True in Hc by done. by injection Hc as <-.
Qed.

Lemma masked_cell_kept ti D dm i j d :
  masked ti D = Ok dm → cell D i j = Some d →
  i ≠ j → comparable ti i j → cell dm i j = Some d.
Proof.
  unfold masked, comparable. intros H Hc Hne Hcmp. destruct ti as [tl|].
  - unfold mask_nan in H. destruct (_ =? _); [|done]. injection H as <-.
    destruct Hcmp as (t_i & t_j & Hi & Hj & Hle).
    rewrite cell_zip_with, cell_causal_mask, cell_fill_diagonal, Hi, Hj, Hc.
    simpl. by rewrite Hle, decide_False.
  - injection H as <-. rewrite cell_fill_diagonal, Hc. simpl.
    by rewrite decide_False.
Qed.

(** The cells credited by one iteration. *)
Lemma tally_step_credits X ti am gp gb nb rnd nb' :
  tally_step metric X ti am gp gb nb rnd = Ok nb' →
  ∃ idx, nb' = incr_at idx nb
         ∧ ∀ i j, (i, j) ∈ idx →
             am = true ∨ (finite_metric metric ∧ has_candidate (length X) ti i) →
             ¬ (i = j ∨ later ti i j).
Proof.
  unfold tally_step. rsimpl.
  destruct (take_columns X rnd) as [_X|e] eqn:EX; [|done].
  apply rmap_lookup in EX as [HlX _].
  destruct (dist_fn metric gp ti gb _X) as [D|e] eqn:ED; [|done].
  fold (masked ti D).
  destruct (masked ti D) as [dm|e] eqn:EM; [|done].
  destruct am.
  - intros [= <-]. eexists. split; [done|]. intros i j Hin _ Hex.
    apply elem_of_all_argmin in Hin as (row & v & Hr & Hv & Hlt).
    assert (cell dm i j = Some v) as Hc by (unfold cell; by rewrite Hr).
    rewrite (fltb_not_selectable v _ _ (masked_cell_excluded _ _ _ _ _ _ EM Hc Hex))
      in Hlt. done.
  - destruct (nanargmin dm) as [args|e] eqn:EA; [|done].
    intros [= <-]. eexists. split; [done|].
    intros i a Hin [?|[Hfin (j & Hji & Hjn & Hcmp)]] Hex; [done|].
    apply elem_of_lookup_zip_with in Hin as (k & i' & x & Heq & Hk & Hy).
    injection Heq as -> ->.
    apply lookup_seq in Hk as [-> Hkn]. simpl in *.
    apply rmap_lookup in EA as [_ HA].
    destruct (HA _ _ Hy) as (row & Hrow & Harg).
    destruct (dist_fn_cells gp ti gb _X D k j ED) as (d & Hd & Hfd);
      [lia..|].
    assert (selectable d = true) as Hsd.
    { destruct Hfd as [->|(p & q & ->)]; [done|].
      by destruct (Hfin p q) as [r ->]. }
    assert (cell dm k j = Some d) as Hcj
      by (eapply masked_cell_kept; eauto).
    assert (row !! j = Some d) as Hrj
      by (unfold cell in Hcj; rewrite Hrow in Hcj; done).
    destruct (nanargmin_row_selectable row x j d Harg Hrj Hsd) as (v' & Hv' & Hsv).
    assert (cell dm k x = Some v') as Hca by (unfold cell; by rewrite Hrow).
    rewrite (masked_cell_excluded _ _ _ _ _ _ EM Hca Hex) in Hsv. done.
Qed.

Lemma iteration_Ok X ti am gp gb nf ss nb (w w' : @world rng_state) nb' :
  iteration metric randint X ti am gp gb nf ss nb w = (Ok nb', w') →
  ∃ rnd, tally_step metric X ti am gp gb nb rnd = Ok nb'.
Proof.
  unfold iteration. destruct (randint nf ss (rng w)) as [[rnd|e] g]; rsimpl.
  - destruct (tally_step _ _ _ _ _ _ _ _) as [nb1|e] eqn:E; [|done].
    intros [= <- _]. eauto.
  - done.
Qed.

(** What the loop does to one cell of the tally. *)
Lemma bootstrap_loop_cell X ti am gp gb nf ss k (i j : nat) :
  ∀ nb (w w' : @world rng_state) nb',
    bootstrap_loop metric randint X ti am gp gb nf ss k nb w = (Ok nb', w') →
    (∀ c, cell nb' i j = Some c →
          ∃ c0, cell nb i j = Some c0 ∧ c0 ≤ c ≤ c0 + k)
    ∧ (am = true ∨ (finite_metric metric ∧ has_candidate (length X) ti i) →
       i = j ∨ later ti i j → cell nb' i j = cell nb i j).
Proof.
  induction k as [|k IH]; intros nb w w' nb' H; simpl in H.
  - injection H as <- _. split; [|done]. intros c Hc. exists c. split; [done|lia].
  - destruct (iteration _ _ _ _ _ _ _ _ _ _ w) as [[nb1|e] w1] eqn:E; [|done].
    apply iteration_Ok in E as (rnd & E).
    apply tally_step_credits in E as (idx & -> & Hidx).
    apply IH in H as [Hb Hz]. split.
    + intros c Hc. destruct (Hb c Hc) as (c1 & Hc1 & Hle).
      rewrite cell_incr_at in Hc1. destruct (cell nb i j) as [c0|]; [|done].
      simpl in Hc1. exists c0. split; [done|].
      destruct (bool_decide _); injection Hc1 as <-; lia.
    + intros Hcond Hex. rewrite (Hz Hcond Hex), cell_incr_at.
      rewrite bool_decide_eq_false_2; [by destruct (cell nb i j)|].
      intros Hin. by apply (Hidx i j Hin Hcond).
Qed.

Lemma in_unit_fdiv_count (c n : nat) : c ≤ n → 1 ≤ n → in_unit (fdiv_count c n) = true.
Proof.
  intros Hc Hn. destruct n as [|n]; [lia|].
  unfold in_unit, fdiv_count, fzero, fone, fleb, Qle_bool. simpl Qnum. simpl Qden.
  apply andb_true_iff. split; apply Z.leb_le.
  - lia.
  - rewrite Z.mul_1_r, Z.mul_1_l.
    rewrite <- (positive_nat_Z (Pos.of_nat (S n))), Nat2Pos.id by done. lia.
Qed.

Lemma feqb_fdiv_zero (n : nat) : 1 ≤ n → feqb (fdiv_count 0 n) fzero = true.
Proof. intros Hn. destruct n as [|n]; [lia|]. done. Qed.

(** The tally behind a returned frequency matrix. *)
Lemma bootstrap_neighbors_Ok X ti sigma sample_prop n_iter rd am gp gb
    (w w' : @world rng_state) F :
  bootstrap_neighbors metric randint X ti sigma sample_prop n_iter rd am gp gb w
  = (Ok F, w') →
  ∀ i j v, cell F i j = Some v →
    ∃ c, v = fdiv_count c n_iter ∧ c ≤ n_iter
         ∧ (am = true ∨ (finite_metric metric ∧ has_candidate (length X) ti i) →
            i = j ∨ later ti i j → c = 0).
Proof.
  unfold bootstrap_neighbors.
  destruct (bootstrap_loop _ _ _ _ _ _ _ _ _ _ _ _) as [[nb|e] w1] eqn:E; [|done].
  intros [= <- _] i j v Hv. rewrite cell_fmap in Hv.
  destruct (cell nb i j) as [c|] eqn:Hc; [|done]. simpl in Hv. injection Hv as <-.
  destruct (bootstrap_loop_cell _ _ _ _ _ _ _ _ i j _ _ _ _ E) as [Hb Hz].
  destruct (Hb c Hc) as (c0 & Hc0 & Hle).
  apply cell_zeros in Hc0 as ->.
  exists c. split; [done|]. split; [lia|].
  intros Hcond Hex. rewrite (Hz Hcond Hex) in Hc.
  by apply cell_zeros in Hc.
Qed.

(** C1.  After at least one iteration every frequency lies in [[0, 1]].
    The diagonal entry of row [i] is zero in all-minima mode, and in default
    mode when the metric is finite and item [i] has another item that is not
    later. *)
Theorem frequencies_in_unit_interval X ti sigma sample_prop n_iter rd am gp gb
    (w w' : @world rng_state) F :
  1 ≤ n_iter →
  bootstrap_neighbors metric randint X ti sigma sample_prop n_iter rd am gp gb w
  = (Ok F, w') →
  (∀ i j v, cell F i j = Some v → in_unit v = true)
  ∧ (∀ i v, cell F i i = Some v →
       am = true ∨ (finite_metric metric ∧ has_candidate (length X) ti i) →
       feqb v fzero = true).
Proof.
  intros Hn HF. split.
  - intros i j v Hv.
    destruct (bootstrap_neighbors_Ok _ _ _ _ _ _ _ _ _ _ _ _ HF i j v Hv)
      as (c & -> & Hc & _).
    by apply in_unit_fdiv_count.
  - intros i v Hv Hcond.
    destruct (bootstrap_neighbors_Ok _ _ _ _ _ _ _ _ _ _ _ _ HF i i v Hv)
      as (c & -> & _ & Hz).
    rewrite (Hz Hcond (or_introl eq_refl)). by apply feqb_fdiv_zero.
Qed.

(** C3.  After at least one iteration, with a time index, the frequency of
    [(i, j)] is zero whenever item [j] is strictly later than item [i]: in
    all-minima mode always, and in default mode when the metric is finite
    and item [i] has another item that is not later. *)
Theorem frequencies_respect_time X tl sigma sample_prop n_iter rd am gp gb
    (w w' : @world rng_state) F :
  1 ≤ n_iter →
  bootstrap_neighbors metric randint X (Some tl) sigma sample_prop n_iter rd am
    gp gb w = (Ok F, w') →
  ∀ i j t_i t_j v,
    tl !! i = Some t_i → tl !! j = Some t_j → ts_leb t_j t_i = false →
    cell F i j = Some v →
    am = true
    ∨ (finite_metric metric ∧ has_candidate (length X) (Some tl) i) →
    feqb v fzero = true.
Proof.
  intros Hn HF i j t_i t_j v Hi Hj Hlt Hv Hcond.
  destruct (bootstrap_neighbors_Ok _ _ _ _ _ _ _ _ _ _ _ _ HF i j v Hv)
    as (c & -> & _ & Hz).
  rewrite Hz; [by apply feqb_fdiv_zero|done|].
  right. exists tl, t_i, t_j. done.
Qed.
End CreditFacts.

Lemma cityblock_finite : finite_metric cityblock.
Proof. intros a b. eexists. reflexivity. Qed.

Lemma frequencies_in_unit_interval_witness :
  in_unit (Fin (2 # 2)) = true ∧ feqb (Fin (0 # 2)) fzero = true.
Proof.
  destruct (frequencies_in_unit_interval cityblock counter_randint
              [[1; 5]; [2; 7]]%Z None half (1 # 2) 2 false false false 5%Z w0
              (mkWorld 2 2)
              [[Fin (0 # 2); Fin (2 # 2)]; [Fin (2 # 2); Fin (0 # 2)]]
              ltac:(lia) ltac:(vm_compute; reflexivity)) as [Hunit Hdiag].
  split.
  - exact (Hunit 0 1 _ eq_refl).
  - refine (Hdiag 0 _ eq_refl _). right. split; [exact cityblock_finite|].
    exists 1. simpl. repeat split; lia.
Defined.

Lemma frequencies_respect_time_witness :
  feqb (Fin (0 # 2)) fzero = true.
Proof.
  refine (frequencies_respect_time cityblock counter_randint
            [[1; 5]; [2; 7]]%Z [y2000; y2001] half (1 # 2) 2 false true false
            5%Z w0 (mkWorld 2 2)
            [[Fin (0 # 2); Fin (0 # 2)]; [Fin (2 # 2); Fin (0 # 2)]]
            ltac:(lia) ltac:(vm_compute; reflexivity)
            0 1 y2000 y2001 _ eq_refl eq_refl eq_refl eq_refl _).
  by left.
Defined.

(** C1, as stated, fails without any iteration, where the division of the
    tally by zero leaves NaN in every cell; and it fails on a single item,
    which default selection credits to itself in every iteration. *)
Lemma frequencies_unit_diagonal_counterexample :
  (bootstrap_neighbors cityblock counter_randint [[1; 5]; [2; 7]]%Z None half
     (1 # 2) 0 false false false 5%Z w0
   = (Ok [[NaN; NaN]; [NaN; NaN]], w0)
   ∧ in_unit NaN = false ∧ feqb NaN fzero = false)
  ∧ (bootstrap_neighbors cityblock counter_randint [[1; 5]]%Z None half
       (1 # 2) 2 false false false 5%Z w0
     = (Ok [[Fin (2 # 2)]], mkWorld 2 2)
     ∧ feqb (Fin (2 # 2)) fzero = false).
Proof. repeat split; vm_compute; reflexivity. Qed.

(** C3, as stated, fails without any iteration (every cell is NaN), and
    it fails in default mode on the earliest item when it is not the first
    row: item 1 precedes item 0 and is credited to it in every iteration. *)
Lemma frequencies_time_counterexample :
  ts_leb y2001 y2000 = false
  ∧ (bootstrap_neighbors cityblock counter_randint [[1; 5]; [2; 7]]%Z
       (Some [y2001; y2000]) half (1 # 2) 0 false false false 5%Z w0
     = (Ok [[NaN; NaN]; [NaN; NaN]], w0)
     ∧ feqb NaN fzero = false)
  ∧ (∃ F w',
       bootstrap_neighbors cityblock counter_randint [[1; 5]; [2; 7]]%Z
         (Some [y2001; y2000]) half (1 # 2) 2 false false false 5%Z w0
       = (Ok F, w')
       ∧ cell F 1 0 = Some (Fin (2 # 2))
       ∧ feqb (Fin (2 # 2)) fzero = false).
Proof.
  split; [done|]. split; [repeat split; vm_compute; reflexivity|].
  do 2 eexists. repeat split; vm_compute; reflexivity.
Qed.

(** ** The earliest item in default mode *)

Lemma argmin_from_all_inf (l : list float64) :
  ∀ bi i, Forall (fun x => x = PInf) l → argmin_from PInf bi i l = bi.
Proof.
  induction l as [|x l IH]; intros bi i Hl; simpl; [done|].
  apply Forall_cons in Hl as [-> Hl]. simpl. by apply IH.
Qed.

Lemma nanargmin_row_unselectable (row : list float64) (a : nat) :
  nanargmin_row row = Ok a →
  Forall (fun x => selectable x = false) row → a = 0.
Proof.
  unfold nanargmin_row. intros H Hall.
  destruct ((0 <? length row) && forallb isnan row); [done|].
  assert (Forall (fun x => x = PInf) (map replace_nan row)) as Hinf.
  { apply Forall_fmap. eapply Forall_impl; [exact Hall|].
    intros x Hx. by destruct x. }
  destruct (map replace_nan row) as [|x l]; [done|].
  apply Forall_cons in Hinf as [-> Hinf]. simpl in H. injection H as <-.
  by apply argmin_from_all_inf.
Qed.

Lemma feqb_fdiv_one (n : nat) : 1 ≤ n → feqb (fdiv_count n n) fone = true.
Proof.
  intros Hn. destruct n as [|n]; [lia|].
  unfold fdiv_count, fone, feqb. apply Qeq_bool_iff. unfold Qeq.
  remember (Pos.of_nat (S n)) as p eqn:Hp. cbn [Qnum Qden].
  rewrite Z.mul_1_r, Z.mul_1_l.
  rewrite <- (positive_nat_Z p), Hp, Nat2Pos.id by done. done.
Qed.

Section EarliestItem.
Context {feat rng_state : Type}.
Variable metric : list feat -> list feat -> float64.
Variable randint : Z -> Z -> rng_state -> result (list nat) * rng_state.

Lemma tally_step_earliest X tl gp gb nb rnd nb' i :
  tally_step metric X (Some tl) false gp gb nb rnd = Ok nb' →
  i < length X → strictly_earliest tl i →
  cell nb' i 0 = S <$> cell nb i 0.
Proof.
  unfold tally_step. rsimpl. intros H Hi (t_i & Hti & Hearly).
  destruct (take_columns X rnd) as [_X|e] eqn:EX; [|done].
  apply rmap_lookup in EX as [HlX _].
  destruct (dist_fn metric gp (Some tl) gb _X) as [D|e] eqn:ED; [|done].
  fold (masked (Some tl) D) in H.
  destruct (masked (Some tl) D) as [dm|e] eqn:EM; [|done].
  destruct (nanargmin dm) as [args|e] eqn:EA; [|done].
  injection H as <-. rewrite cell_incr_at.
  apply rmap_lookup in EA as [Hla HA].
  destruct (dist_fn_cells metric gp (Some tl) gb _X D i i ED) as (d & Hd & _);
    [lia..|].
  assert (is_Some (dm !! i)) as [row Hrow].
  { unfold masked, mask_nan in EM. destruct (_ =? _); [|done].
    injection EM as <-. rewrite lookup_zip_with.
    unfold causal_mask. rewrite list_lookup_fmap, Hti. simpl.
    unfold fill_diagonal. rewrite list_lookup_imap.
    unfold cell in Hd. destruct (D !! i); [by eexists|done]. }
  destruct (lookup_lt_is_Some_2 args i) as [a Ha];
    [rewrite Hla; by eapply lookup_lt_Some|].
  destruct (HA _ _ Ha) as (row' & Hrow' & Harg).
  rewrite Hrow in Hrow'. injection Hrow' as <-.
  assert (a = 0) as ->.
  { apply (nanargmin_row_unselectable row a Harg).
    apply Forall_lookup. intros j v Hv.
    apply (masked_cell_excluded (Some tl) D dm i j v EM).
    - unfold cell. by rewrite Hrow.
    - destruct (decide (i = j)) as [->|Hne]; [by left|right].
      unfold masked, mask_nan in EM. destruct (_ =? _); [|done].
      injection EM as <-.
      assert (cell (zip_with (zip_with (fun (p : bool) d => if p then d else NaN))
                      (causal_mask tl) (fill_diagonal PInf D)) i j = Some v)
        as Hc by (unfold cell; by rewrite Hrow).
      rewrite cell_zip_with, cell_causal_mask, Hti in Hc.
      destruct (tl !! j) as [t_j|] eqn:Hj; [|done].
      exists tl, t_i, t_j. repeat split; try done. apply (Hearly j); done. }
  rewrite bool_decide_eq_true_2; [done|].
  apply elem_of_lookup_zip_with. exists i, i, 0. repeat split; [|done].
  by apply lookup_seq.
Qed.

Lemma bootstrap_loop_earliest X tl gp gb nf ss k i :
  i < length X → strictly_earliest tl i →
  ∀ nb (w w' : @world rng_state) nb',
    bootstrap_loop metric randint X (Some tl) false gp gb nf ss k nb w
    = (Ok nb', w') →
    cell nb' i 0 = (fun c => c + k) <$> cell nb i 0.
Proof.
  intros Hi Hearly. induction k as [|k IH]; intros nb w w' nb' H; simpl in H.
  - injection H as <- _. destruct (cell nb i 0); simpl; [f_equal; lia|done].
  - destruct (iteration _ _ _ _ _ _ _ _ _ _ w) as [[nb1|e] w1] eqn:E; [|done].
    apply iteration_Ok in E as (rnd & E).
    rewrite (IH _ _ _ _ H), (tally_step_earliest _ _ _ _ _ _ _ _ E Hi Hearly).
    destruct (cell nb i 0); simpl; [f_equal; lia|done].
Qed.

(** X1.  In default mode and after at least one iteration, an item that
    strictly precedes every other item has frequency one at column 0,
    whatever the features and the metric: its row holds no candidate, and
    [np.nanargmin] answers column 0 for such a row. *)
Lemma earliest_item_frequency_one X tl sigma sample_prop n_iter rd gp gb
    (w w' : @world rng_state) F i :
  1 ≤ n_iter → i < length X → strictly_earliest tl i →
  bootstrap_neighbors metric randint X (Some tl) sigma sample_prop n_iter rd
    false gp gb w = (Ok F, w') →
  ∃ v, cell F i 0 = Some v ∧ feqb v fone = true.
Proof.
  intros Hn Hi Hearly. unfold bootstrap_neighbors.
  destruct (bootstrap_loop _ _ _ _ _ _ _ _ _ _ _ _) as [[nb|e] w1] eqn:E; [|done].
  intros [= <- _]. rewrite cell_fmap.
  rewrite (bootstrap_loop_earliest _ _ _ _ _ _ _ _ Hi Hearly _ _ _ _ E).
  unfold cell, zeros. rewrite lookup_replicate_2 by done. simpl.
  rewrite lookup_replicate_2 by lia. simpl. eexists. split; [done|].
  by apply feqb_fdiv_one.
Qed.
End EarliestItem.

Lemma earliest_item_frequency_one_witness :
  ∃ v, cell [[Fin (0 # 2); Fin (2 # 2)]; [Fin (2 # 2); Fin (0 # 2)]] 1 0 = Some v
       ∧ feqb v fone = true.
Proof.
  refine (earliest_item_frequency_one cityblock counter_randint
            [[1; 5]; [2; 7]]%Z [y2001; y2000] half (1 # 2) 2 false false 5%Z w0
            (mkWorld 2 2)
            [[Fin (0 # 2); Fin (2 # 2)]; [Fin (2 # 2); Fin (0 # 2)]] 1
            ltac:(lia) ltac:(simpl; lia) _ ltac:(vm_compute; reflexivity)).
  exists y2000. split; [reflexivity|].
  intros [|[|j]] t_j Hne Hj; [by injection Hj as <-|done|done].
Defined.

(** C2.  Two items, the second one strictly earlier than the first, default
    selection.  Row 1 has no candidate, yet column 0 is credited in both
    iterations: its row is [[1, 0]], not all zeros.  With the items in
    chronological order the earliest item is credited to itself. *)
Theorem earliest_item_is_credited :
  bootstrap_neighbors cityblock counter_randint [[1; 5]; [2; 7]]%Z
    (Some [y2001; y2000]) half (1 # 2) 2 false false false 5%Z w0
  = (Ok [[Fin (0 # 2); Fin (2 # 2)]; [Fin (2 # 2); Fin (0 # 2)]], mkWorld 2 2)
  ∧ bootstrap_neighbors cityblock counter_randint [[1; 5]; [2; 7]]%Z
      (Some [y2000; y2001]) half (1 # 2) 2 false false false 5%Z w0
    = (Ok [[Fin (2 # 2); Fin (0 # 2)]; [Fin (2 # 2); Fin (0 # 2)]], mkWorld 2 2).
Proof. split; vm_compute; reflexivity. Qed.

(** ** GraphBuilder *)

Lemma elem_of_where_ge (row : list float64) (sigma : float64) (j : nat) :
  j ∈ where_ge row sigma ↔ ∃ v, row !! j = Some v ∧ fgeb v sigma = true.
Proof.
  unfold where_ge. rewrite list_elem_of_omap. split.
  - intros (o & Ho & Hid). apply elem_of_lookup_imap in Ho as (k & v & -> & Hk).
    simpl in Hid. destruct (fgeb v sigma) eqn:E; [|done].
    injection Hid as <-. eauto.
  - intros (v & Hv & Hge). exists (Some j). split; [|done].
    apply elem_of_lookup_imap. exists j, v. by rewrite Hge.
Qed.

Lemma rfold_link_edges (time_index : time_arg) (i : nat) (ns : list nat) :
  ∀ G G', rfold (link time_index i) G ns = Ok G' →
    edges G' = edges G ∪ list_to_set ((fun x => (i, x)) <$> ns).
Proof.
  induction ns as [|n ns IH]; intros G G' H; rsimpl.
  - injection H as <-. set_solver.
  - unfold link in H. rsimpl.
    destruct (date_of time_index n) as [d|e]; [|done].
    apply IH in H. rewrite H. simpl. set_solver.
Qed.

Lemma to_graph_row_edges time_index sigma only_best G i row G' :
  to_graph_row time_index sigma only_best G i row = Ok G' →
  ∃ ns, kept_neighbors sigma only_best row = Ok ns
        ∧ edges G' = edges G ∪ list_to_set ((fun x => (i, x)) <$> ns).
Proof.
  unfold to_graph_row. rsimpl.
  destruct (date_of time_index i) as [d|e]; [|done].
  destruct (kept_neighbors sigma only_best row) as [ns|e]; [|done].
  intros H. exists ns. split; [done|].
  by apply rfold_link_edges in H.
Qed.

Lemma to_graph_rows_edges time_index sigma only_best (rows : matrix float64) :
  ∀ i G G', to_graph_rows time_index sigma only_best i rows G = Ok G' →
    ∀ e, e ∈ edges G' ↔
         e ∈ edges G ∨
         ∃ k row ns x, rows !! k = Some row
                       ∧ kept_neighbors sigma only_best row = Ok ns
                       ∧ x ∈ ns ∧ e = (i + k, x).
Proof.
  induction rows as [|row rows IH]; intros i G G' H e; simpl in H.
  - injection H as <-. split; [by left|].
    intros [?|(k & r & ? & ? & Hk & _)]; [done|]. by rewrite lookup_nil in Hk.
  - rsimpl.
    destruct (to_graph_row time_index sigma only_best G i row) as [G1|err] eqn:E;
      [|done].
    apply to_graph_row_edges in E as (ns & Hns & HE).
    rewrite (IH _ _ _ H e), HE. split.
    + intros [Hin|(k & r & ns' & x & Hk & Hkept & Hx & ->)].
      * apply elem_of_union in Hin as [Hin|Hin]; [by left|].
        apply elem_of_list_to_set, list_elem_of_fmap in Hin as (x & -> & Hx).
        right. exists 0, row, ns, x. by rewrite Nat.add_0_r.
      * right. exists (S k), r, ns', x. repeat split; try done. f_equal. lia.
    + intros [Hin|(k & r & ns' & x & Hk & Hkept & Hx & ->)].
      * left. set_solver.
      * destruct k as [|k]; simpl in Hk.
        -- injection Hk as <-. rewrite Hns in Hkept. injection Hkept as <-.
           left. apply elem_of_union. right.
           apply elem_of_list_to_set, list_elem_of_fmap. exists x.
           by rewrite Nat.add_0_r.
        -- right. exists k, r, ns', x. repeat split; try done. f_equal. lia.
Qed.

Lemma kept_best_unique sigma row ns x y :
  kept_neighbors sigma true row = Ok ns → x ∈ ns → y ∈ ns → x = y.
Proof.
  unfold kept_neighbors. rsimpl.
  destruct (np_argmax row) as [best|e]; [|done].
  destruct (row !! best) as [v|]; [|done].
  intros H. injection H as <-.
  destruct (fgeb v sigma); set_solver.
Qed.

(** C7.  In the graph [to_graph] returns, with [only_best] no node has two
    distinct outgoing edges; without it, the edge [(i, j)] is present if and
    only if [choices[i][j] >= sigma]. *)
Theorem to_graph_edges_spec (choices : matrix float64) (time_index : time_arg)
    (sigma : float64) (only_best : bool) (G : DiGraph) :
  to_graph choices time_index sigma only_best = Ok G →
  (only_best = true →
     ∀ i j k, (i, j) ∈ edges G → (i, k) ∈ edges G → j = k)
  ∧ (only_best = false →
     ∀ i j, (i, j) ∈ edges G ↔
            ∃ v, cell choices i j = Some v ∧ fgeb v sigma = true).
Proof.
  unfold to_graph. intros H.
  pose proof (to_graph_rows_edges _ _ _ _ _ _ _ H) as HE. split.
  - intros -> i j k Hj Hk.
    apply HE in Hj as [Hj|(a & ra & na & x & Ha & Hka & Hx & Hea)]; [set_solver|].
    apply HE in Hk as [Hk|(b & rb & nb & y & Hb & Hkb & Hy & Heb)]; [set_solver|].
    simpl in Hea, Heb. injection Hea as -> ->. injection Heb as <- ->.
    rewrite Ha in Hb. injection Hb as <-. rewrite Hka in Hkb. injection Hkb as <-.
    eapply kept_best_unique; eauto.
  - intros -> i j. rewrite HE. unfold cell. split.
    + intros [Hin|(k & row & ns & x & Hk & Hkept & Hx & Heq)]; [set_solver|].
      simpl in Heq. injection Heq as -> ->.
      unfold kept_neighbors in Hkept. injection Hkept as <-.
      apply elem_of_where_ge in Hx as (v & Hv & Hge).
      exists v. rewrite Hk. by simpl.
    + intros (v & Hc & Hge). destruct (choices !! i) as [row|] eqn:Hr; [|done].
      simpl in Hc. right. exists i, row, (where_ge row sigma), j.
      repeat split; try done. apply elem_of_where_ge. eauto.
Qed.

Lemma to_graph_edges_spec_witness :
  ∃ G, to_graph [[fzero; fone]; [fzero; fzero]] TFalse half false = Ok G
       ∧ ((0, 1) ∈ edges G ↔
          ∃ v, cell [[fzero; fone]; [fzero; fzero]] 0 1 = Some v
               ∧ fgeb v half = true).
Proof.
  eexists. split; [vm_compute; reflexivity|].
  refine (proj2 (to_graph_edges_spec [[fzero; fone]; [fzero; fzero]] TFalse
                   half false _ _) _ 0 1); reflexivity.
Defined.

(** ** EvolvingGraphGenerator *)

(** C4.  Two items given in anti-chronological order, the later one
    pointing to the earlier one.  [to_graph] links node 0 to node 1; the
    last graph of [evolving_graphs] carries the loop [(1, 1)] instead: the
    rows are visited in chronological order and numbered by a running
    counter, while the columns keep their original numbers. *)
Theorem evolving_graphs_final_differs :
  ∃ G Gs G',
    to_graph [[fzero; fone]; [fzero; fzero]] (TIndex [y2001; y2000]) half false
      = Ok G
    ∧ evolving_graphs [[fzero; fone]; [fzero; fzero]] [y2001; y2000] year half
      = Ok Gs
    ∧ last Gs = Some (2001%Z, G')
    ∧ dom (nodes G) = dom (nodes G')
    ∧ edges G = {[ (0, 1) ]}
    ∧ edges G' = {[ (1, 1) ]}
    ∧ edges G ≠ edges G'.
Proof.
  do 3 eexists. repeat split; try (vm_compute; reflexivity).
  vm_compute. discriminate.
Qed.

Lemma insert_unique_sorted (z : Z) (l : list Z) :
  StronglySorted Z.lt l → StronglySorted Z.lt (insert_unique z l).
Proof.
  induction l as [|y l IH]; intros Hs; simpl.
  - repeat constructor.
  - apply StronglySorted_inv in Hs as [Hs Hy].
    destruct (z <? y)%Z eqn:E1.
    + apply Z.ltb_lt in E1. constructor; [by constructor|].
      constructor; [done|]. eapply Forall_impl; [exact Hy|]. intros; simpl in *; lia.
    + destruct (z =? y)%Z eqn:E2; [by constructor|].
      apply Z.ltb_ge in E1. apply Z.eqb_neq in E2.
      constructor; [by apply IH|].
      apply Forall_forall. intros x Hx.
      apply elem_of_insert_unique in Hx as [->|Hx]; [lia|].
      rewrite Forall_forall in Hy. by apply Hy.
Qed.

Lemma np_unique_sorted (l : list Z) : StronglySorted Z.lt (np_unique l).
Proof.
  induction l as [|z l IH]; simpl; [constructor|]. by apply insert_unique_sorted.
Qed.

Lemma sort_index_sorted {A} (df : list (Timestamp * A)) :
  StronglySorted (fun x y => ts_leb x.1 y.1 = true) df → sort_index df = df.
Proof.
  induction df as [|x df IH]; intros Hs; simpl; [done|].
  apply StronglySorted_inv in Hs as [Hs Hx]. rewrite (IH Hs).
  destruct df as [|y df]; simpl; [done|].
  apply Forall_cons in Hx as [Hxy _]. by rewrite Hxy.
Qed.

Lemma zip_sorted {A B} (R : A → A → Prop) (l : list A) :
  ∀ k : list B, StronglySorted R l → StronglySorted (fun x y => R x.1 y.1) (zip l k).
Proof.
  induction l as [|a l IH]; intros [|b k] Hs; simpl; try constructor.
  - apply IH. by apply StronglySorted_inv in Hs as [Hs _].
  - apply StronglySorted_inv in Hs as [_ Ha].
    apply Forall_forall. intros [a' b'] Hin. simpl.
    rewrite Forall_forall in Ha. apply Ha. by eapply elem_of_zip_l.
Qed.

Lemma filter_none {A} (P : A → Prop) `{∀ x, Decision (P x)} (l : list A) :
  (∀ x, x ∈ l → ¬ P x) → filter P l = [].
Proof.
  induction l as [|x l IH]; intros Hl; [done|].
  rewrite filter_cons_False by (apply Hl; set_solver).
  apply IH. intros y Hy. apply Hl. set_solver.
Qed.

(** Grouping a frame whose keys never decrease and reading the groups in
    key order gives back the rows in frame order. *)
Lemma groups_in_order {A} (kf : A → Z) (l : list A) :
  StronglySorted (fun x y => (kf x ≤ kf y)%Z) l →
  concat (map (fun key => filter (fun r => kf r = key) l) (np_unique (map kf l)))
  = l.
Proof.
  induction l as [|x l IH]; intros Hs; simpl; [done|].
  apply StronglySorted_inv in Hs as [Hs Hx]. specialize (IH Hs).
  pose proof (np_unique_sorted (map kf l)) as HU.
  assert (∀ u, u ∈ np_unique (map kf l) → (kf x ≤ u)%Z) as Hmin.
  { intros u Hu. apply elem_of_np_unique, list_elem_of_fmap in Hu as (y & -> & Hy).
    rewrite Forall_forall in Hx. by apply Hx. }
  assert (∀ U : list Z, (∀ u, u ∈ U → kf x ≠ u) →
            map (fun key => filter (fun r => kf r = key) (x :: l)) U
            = map (fun key => filter (fun r => kf r = key) l) U) as Hother.
  { intros U HUx. apply map_ext_in. intros u Hu. apply list_elem_of_In in Hu.
    rewrite filter_cons. destruct (decide (kf x = u)) as [E|E]; [|done].
    by destruct (HUx u Hu). }
  destruct (np_unique (map kf l)) as [|y U] eqn:EU; simpl.
  - rewrite filter_cons, decide_True by done.
    destruct l as [|x' l]; [done|]. exfalso.
    assert (kf x' ∈ np_unique (map kf (x' :: l))) as Hin
      by (apply elem_of_np_unique; set_solver).
    rewrite EU in Hin. set_solver.
  - apply StronglySorted_inv in HU as [HU Hy].
    assert (∀ u, u ∈ U → kf x ≠ u) as HxU.
    { intros u Hu. rewrite Forall_forall in Hy. specialize (Hy u Hu).
      specialize (Hmin y ltac:(set_solver)). lia. }
    destruct (kf x <? y)%Z eqn:E1; [|destruct (kf x =? y)%Z eqn:E2].
    + apply Z.ltb_lt in E1. simpl. simpl in IH.
      rewrite (Hother U HxU), !filter_cons.
      rewrite decide_True by done. rewrite decide_False by lia.
      assert (filter (fun r => kf r = kf x) l = []) as ->.
      { apply filter_none. intros r Hr Heq.
        assert (kf r ∈ np_unique (map kf l)) as Hin
          by (apply elem_of_np_unique, list_elem_of_fmap; eauto).
        rewrite EU in Hin. apply elem_of_cons in Hin as [E|Hin]; [lia|].
        by apply (HxU (kf r)). }
      simpl. by rewrite IH.
    + apply Z.eqb_eq in E2. simpl. simpl in IH.
      rewrite (Hother U HxU), filter_cons, decide_True by done.
      simpl. by rewrite IH.
    + apply Z.ltb_ge in E1. apply Z.eqb_neq in E2.
      specialize (Hmin y ltac:(set_solver)). lia.
Qed.

Lemma concat_map_inner {A B C} (f : B → C) (F : A → list B) (U : list A) :
  concat (map (fun x => map f (F x)) U) = map f (concat (map F U)).
Proof.
  induction U as [|u U IH]; simpl; [done|]. by rewrite map_app, IH.
Qed.

Lemma evolve_row_to_graph_row time_index sigma i G row :
  evolve_row time_index sigma (i, G) row
  = (G' ← to_graph_row (TIndex time_index) sigma false G i row; Ok (S i, G')).
Proof.
  unfold evolve_row, to_graph_row, kept_neighbors. rsimpl.
  by destruct (time_index !! i).
Qed.

Lemma evolve_rows_to_graph_rows time_index sigma (rows : matrix float64) :
  ∀ i G,
    rfold (evolve_row time_index sigma) (i, G) rows
    = (G' ← to_graph_rows (TIndex time_index) sigma false i rows G;
       Ok (i + length rows, G')).
Proof.
  induction rows as [|row rows IH]; intros i G; cbn [rfold].
  - rsimpl. by rewrite Nat.add_0_r.
  - rewrite evolve_row_to_graph_row. rsimpl.
    destruct (to_graph_row _ _ _ _ _ _) as [G1|e]; [|done].
    rewrite IH. rsimpl.
    destruct (to_graph_rows _ _ _ _ _ _) as [G2|e]; [|done].
    do 2 f_equal. lia.
Qed.

Lemma rfold_app {A B} (f : A → B → result A) (l1 l2 : list B) :
  ∀ a, rfold f a (l1 ++ l2) = (a' ← rfold f a l1; rfold f a' l2).
Proof.
  induction l1 as [|b l1 IH]; intros a; simpl; [done|]. rsimpl.
  destruct (f a b) as [a1|e]; [|done]. apply IH.
Qed.

Lemma evolve_groups_last time_index sigma (groups : list (Z * matrix float64)) :
  ∀ st ys key G,
    evolve_groups time_index sigma groups st = Ok ys →
    last ys = Some (key, G) →
    ∃ i, rfold (evolve_row time_index sigma) st (concat (map snd groups))
         = Ok (i, G).
Proof.
  induction groups as [|[gid stories] groups IH]; intros st ys key G H Hlast;
    simpl in H.
  - injection H as <-. done.
  - rsimpl.
    destruct (rfold (evolve_row time_index sigma) st stories) as [st1|e] eqn:E1;
      [|done].
    destruct (evolve_groups time_index sigma groups st1) as [later|e] eqn:E2;
      [|done].
    injection H as <-. rewrite rfold_app, E1. rsimpl.
    destruct later as [|y later].
    + simpl in Hlast. injection Hlast as _ <-.
      destruct groups as [|[g2 s2] groups]; simpl in *.
      * destruct st1. eauto.
      * rsimpl. destruct (rfold _ st1 s2); [|done].
        by destruct (evolve_groups _ _ _ _).
    + apply (IH st1 (y :: later) key G E2).
      by rewrite last_cons_cons in Hlast.
Qed.

(** X2.  When the time index is already in chronological order and the
    grouping function never decreases along it, the last graph of
    [evolving_graphs] is the graph of [to_graph]: in that case the running
    counter is the row number. *)
Lemma evolving_graphs_in_order (choices : matrix float64)
    (time_index : list Timestamp) (groupby : Timestamp → Z) (sigma : float64)
    (Gs : list (Z * DiGraph)) (key : Z) (G : DiGraph) :
  StronglySorted (fun a b => ts_leb a b = true) time_index →
  StronglySorted (fun a b => (groupby a ≤ groupby b)%Z) time_index →
  evolving_graphs choices time_index groupby sigma = Ok Gs →
  last Gs = Some (key, G) →
  to_graph choices (TIndex time_index) sigma false = Ok G.
Proof.
  intros Hchrono Hmono. unfold evolving_graphs, to_graph.
  destruct (length choices =? length time_index) eqn:El; [|done].
  apply Nat.eqb_eq in El. intros H Hlast.
  rewrite (sort_index_sorted (zip time_index choices)) in H
    by (by apply (zip_sorted (fun a b => ts_leb a b = true))).
  destruct (evolve_groups_last _ _ _ _ _ _ _ H Hlast) as (i & Hi).
  unfold group_frame in Hi. rewrite map_map in Hi. simpl in Hi.
  rewrite concat_map_inner in Hi.
  rewrite (groups_in_order (fun r : Timestamp * list float64 => groupby r.1))
    in Hi by (by apply (zip_sorted (fun a b => (groupby a ≤ groupby b)%Z))).
  change (map snd (zip time_index choices)) with ((zip time_index choices).*2) in Hi.
  rewrite snd_zip in Hi by lia.
  rewrite evolve_rows_to_graph_rows in Hi. rsimpl.
  destruct (to_graph_rows _ _ _ _ _ _) as [G'|e]; [|done]. by injection Hi as _ <-.
Qed.

Lemma evolving_graphs_in_order_witness :
  ∃ G, to_graph [[fzero; fzero]; [fone; fzero]] (TIndex [y2000; y2001]) half
         false = Ok G
       ∧ edges G = {[ (1, 0) ]}.
Proof.
  eexists. split.
  - refine (evolving_graphs_in_order [[fzero; fzero]; [fone; fzero]]
              [y2000; y2001] year half _ 2001%Z _ _ _ _ _).
    + repeat constructor.
    + repeat constructor; simpl; lia.
    + vm_compute. reflexivity.
    + reflexivity.
  - vm_compute. reflexivity.
Defined.

(** ** The convenience wrapper *)

Section WrapperFacts.
Context {feat rng_state : Type}.
Variable metric : list feat -> list feat -> float64.
Variable randint : Z -> Z -> rng_state -> result (list nat) * rng_state.

(** C5.  With labels whose number of distinct values differs from the
    number of rows, [bootstrap_network] first runs the estimator; when the
    estimator returns, all its iterations have been reported and the
    [ValueError] of the label check is raised; an exception of the
    estimator is passed on instead. *)
Theorem bootstrap_network_label_check X (ls : list string) ti sigma
    sample_prop n_iter only_best all_min (w : @world rng_state) :
  length (remove_dups ls) ≠ length X →
  bootstrap_network metric randint X (Some ls) ti sigma sample_prop n_iter
    only_best all_min w
  = after_estimator
      (bootstrap_neighbors metric randint X ti sigma sample_prop n_iter false
         all_min false 5%Z w)
      (ValueError
         "Number of unique labels should be equal to number of data points.")
  ∧ ∀ F w',
      bootstrap_neighbors metric randint X ti sigma sample_prop n_iter false
        all_min false 5%Z w = (Ok F, w') →
      ticks w' = ticks w + n_iter.
Proof.
  intros Hne. split.
  - unfold bootstrap_network, after_estimator.
    destruct (bootstrap_neighbors _ _ _ _ _ _ _ _ _ _ _ _) as [[F|e] w'];
      [|done].
    unfold check_labels. apply Nat.eqb_neq in Hne. rewrite Hne. by rsimpl.
  - unfold bootstrap_neighbors. intros F w'.
    destruct (bootstrap_loop _ _ _ _ _ _ _ _ _ _ _ _) as [[nb|e] w1] eqn:E;
      [|done].
    intros H. injection H as _ <-. by apply bootstrap_loop_ticks in E.
Qed.

(** C9.  With [labels=None], [bootstrap_network] never returns a graph:
    the estimator runs first; when it returns, the label check raises
    [TypeError]; an exception of the estimator is passed on instead. *)
Theorem bootstrap_network_labels_none X ti sigma sample_prop n_iter
    only_best all_min (w : @world rng_state) :
  bootstrap_network metric randint X None ti sigma sample_prop n_iter
    only_best all_min w
  = after_estimator
      (bootstrap_neighbors metric randint X ti sigma sample_prop n_iter false
         all_min false 5%Z w)
      (TypeError "'NoneType' object is not iterable")
  ∧ ∀ G w',
      bootstrap_network metric randint X None ti sigma sample_prop n_iter
        only_best all_min w ≠ (Ok G, w').
Proof.
  assert (bootstrap_network metric randint X None ti sigma sample_prop n_iter
            only_best all_min w
          = after_estimator
              (bootstrap_neighbors metric randint X ti sigma sample_prop
                 n_iter false all_min false 5%Z w)
              (TypeError "'NoneType' object is not iterable")) as E.
  { unfold bootstrap_network, after_estimator.
    by destruct (bootstrap_neighbors _ _ _ _ _ _ _ _ _ _ _ _) as [[F|e] w']. }
  split; [done|]. intros G w'. rewrite E. unfold after_estimator.
  by destruct (bootstrap_neighbors _ _ _ _ _ _ _ _ _ _ _ _) as [[F|e] w1].
Qed.
End WrapperFacts.

Lemma bootstrap_network_label_check_witness :
  bootstrap_network cityblock counter_randint [[1; 5]; [2; 7]]%Z
    (Some ["a"; "b"; "c"]%string) (Some [y2000; y2001]) half (1 # 2) 2 false
    false w0
  = (Raise (ValueError
       "Number of unique labels should be equal to number of data points."),
     mkWorld 2 2).
Proof.
  rewrite (proj1 (bootstrap_network_label_check cityblock counter_randint
                    [[1; 5]; [2; 7]]%Z ["a"; "b"; "c"]%string
                    (Some [y2000; y2001]) half (1 # 2) 2 false false w0
                    ltac:(vm_compute; lia))).
  vm_compute. reflexivity.
Defined.

(** C5, as stated, fails twice.  Three labels for two rows pass the check
    when two of them are equal, and a graph is returned; and when the check
    does fail, both iterations of the estimator have already run. *)
Lemma label_count_mismatch_counterexample :
  (length ["a"; "a"; "b"]%string ≠ length [[1; 5]; [2; 7]]%Z
   ∧ ∃ G w',
       bootstrap_network cityblock counter_randint [[1; 5]; [2; 7]]%Z
         (Some ["a"; "a"; "b"]%string) (Some [y2000; y2001]) half (1 # 2) 2
         false false w0 = (Ok G, w'))
  ∧ (length ["a"; "b"; "c"]%string ≠ length [[1; 5]; [2; 7]]%Z
     ∧ ∃ e w',
         bootstrap_network cityblock counter_randint [[1; 5]; [2; 7]]%Z
           (Some ["a"; "b"; "c"]%string) (Some [y2000; y2001]) half (1 # 2) 2
           false false w0 = (Raise e, w')
         ∧ ticks w' = 2 ∧ rng w' ≠ rng w0).
Proof.
  split; (split; [simpl; lia|]); do 2 eexists.
  - vm_compute. reflexivity.
  - split; [vm_compute; reflexivity|]. simpl. split; [done|lia].
Qed.

(** C9, as stated, fails on a one-column [X] with the default
    [sample_prop] of one half: no feature is drawn, the distance
    computation rejects the empty sample, and its [ValueError] is what the
    caller sees. *)
Lemma labels_none_counterexample :
  bootstrap_network cityblock counter_randint [[1]; [2]]%Z None None half
    (1 # 2) 1000 false false w0
  = (Raise (ValueError "Found array with 0 feature(s)"), w0)
  ∧ ¬ ∃ msg w',
        bootstrap_network cityblock counter_randint [[1]; [2]]%Z None None half
          (1 # 2) 1000 false false w0 = (Raise (TypeError msg), w').
Proof.
  assert (bootstrap_network cityblock counter_randint [[1]; [2]]%Z None None
            half (1 # 2) 1000 false false w0
          = (Raise (ValueError "Found array with 0 feature(s)"), w0)) as E
    by (vm_compute; reflexivity).
  split; [exact E|]. intros (msg & w' & H). rewrite E in H. discriminate.
Qed.

(** * Further properties *)

(** ** Shapes *)

Lemma square_cell {A} (n : nat) (M : matrix A) (i j : nat) :
  square n M → (is_Some (cell M i j) ↔ i < n ∧ j < n).
Proof.
  intros [Hl Hr]. unfold cell. split.
  - intros [v Hv]. destruct (M !! i) as [r|] eqn:Er; [|done]. simpl in Hv.
    split.
    + rewrite <- Hl. by eapply lookup_lt_Some.
    + rewrite Forall_forall in Hr.
      rewrite <- (Hr r) by (by eapply list_elem_of_lookup_2).
      by eapply lookup_lt_Some.
  - intros [Hi Hj]. destruct (lookup_lt_is_Some_2 M i) as [r Er]; [lia|].
    rewrite Er. simpl. apply lookup_lt_is_Some_2.
    rewrite Forall_forall in Hr.
    rewrite (Hr r) by (by eapply list_elem_of_lookup_2). done.
Qed.

Lemma square_zeros {A} (z : A) (n : nat) : square n (zeros z n n).
Proof.
  unfold square, zeros. split; [apply length_replicate|].
  apply Forall_forall. intros r Hr. apply elem_of_replicate in Hr as [-> _].
  apply length_replicate.
Qed.

Lemma square_incr_at (idx : list (nat * nat)) (n : nat) (nb : matrix nat) :
  square n nb → square n (incr_at idx nb).
Proof.
  intros [Hl Hr]. unfold square, incr_at. rewrite length_imap. split; [done|].
  apply Forall_forall. intros r Hin.
  apply elem_of_lookup_imap in Hin as (i & r0 & -> & Hi).
  rewrite length_imap. rewrite Forall_forall in Hr. apply Hr.
  by eapply list_elem_of_lookup_2.
Qed.

Lemma square_fmap {A B} (f : A → B) (n : nat) (M : matrix A) :
  square n M → square n (map (map f) M).
Proof.
  intros [Hl Hr]. unfold square. rewrite length_map. split; [done|].
  apply Forall_forall. intros r Hin.
  apply list_elem_of_fmap in Hin as (r0 & -> & Hin). rewrite length_map.
  rewrite Forall_forall in Hr. by apply Hr.
Qed.

Lemma square_fill_diagonal {A} (v : A) (n : nat) (M : matrix A) :
  square n M → square n (fill_diagonal v M).
Proof.
  intros [Hl Hr]. unfold square, fill_diagonal. rewrite length_imap.
  split; [done|]. apply Forall_forall. intros r Hin.
  apply elem_of_lookup_imap in Hin as (i & r0 & -> & Hi).
  rewrite length_insert. rewrite Forall_forall in Hr. apply Hr.
  by eapply list_elem_of_lookup_2.
Qed.

Section ShapeFacts.
Context {feat rng_state : Type}.
Variable metric : list feat -> list feat -> float64.
Variable randint : Z -> Z -> rng_state -> result (list nat) * rng_state.

Lemma square_grouped_blocks (X : matrix feat) (g seen : list Z) :
  length g = length X → square (length X) (grouped_blocks metric X g seen).
Proof.
  intros Hl. unfold square, grouped_blocks.
  assert (length (zip g X) = length X) as Hz by (rewrite length_zip; lia).
  rewrite length_map. split; [done|]. apply Forall_forall. intros r Hin.
  apply list_elem_of_fmap in Hin as (gx & -> & _). by rewrite length_map.
Qed.

Lemma square_dist_fn gp ti gb (_X : matrix feat) (D : matrix float64) :
  dist_fn metric gp ti gb _X = Ok D → square (length _X) D.
Proof.
  unfold dist_fn. intros H. destruct gp.
  - destruct ti as [tl|]; [|done].
    apply time_grouped_Ok in H as [[_ ->]|[Hl ->]]; [apply square_zeros|].
    apply square_grouped_blocks. by rewrite length_map.
  - apply pairwise_distances_Ok in H as ->. unfold square.
    rewrite length_map. split; [done|]. apply Forall_forall. intros r Hin.
    apply list_elem_of_fmap in Hin as (a & -> & _). by rewrite length_map.
Qed.

Lemma square_masked ti (n : nat) (D dm : matrix float64) :
  square n D → masked ti D = Ok dm →
  square n dm ∧ ∀ tl, ti = Some tl → length tl = n.
Proof.
  intros HD H. pose proof (square_fill_diagonal PInf n D HD) as [Hl Hr].
  unfold masked in H. destruct ti as [tl|].
  - unfold mask_nan in H. destruct (_ =? _) eqn:El; [|done].
    apply Nat.eqb_eq in El. injection H as <-.
    unfold causal_mask in El. rewrite length_map in El.
    split; [|intros ? [= <-]; lia]. unfold square.
    rewrite length_zip_with. unfold causal_mask. rewrite length_map.
    split; [lia|]. apply Forall_forall. intros r Hin.
    apply elem_of_lookup_zip_with in Hin as (i & p & d & -> & Hp & Hd).
    rewrite length_zip_with. rewrite list_lookup_fmap in Hp.
    destruct (tl !! i); [|done]. simpl in Hp. injection Hp as <-.
    rewrite length_map. rewrite Forall_forall in Hr.
    rewrite (Hr d) by (by eapply list_elem_of_lookup_2). lia.
  - injection H as <-. split; [done|]. intros; done.
Qed.

Lemma take_columns_shape {A} (X : matrix A) (cols : list nat) (_X : matrix A) :
  take_columns X cols = Ok _X →
  length _X = length X ∧ Forall (fun r => length r = length cols) _X.
Proof.
  unfold take_columns. intros H. apply rmap_lookup in H as [Hl Hi].
  split; [done|]. apply Forall_lookup. intros i r Hr.
  destruct (Hi i r Hr) as (row & _ & Hrow).
  by apply rmap_lookup in Hrow as [-> _].
Qed.

Lemma tally_step_square X ti am gp gb nb rnd nb' :
  tally_step metric X ti am gp gb nb rnd = Ok nb' →
  square (length X) nb → square (length X) nb'.
Proof.
  intros H Hsq.
  destruct (tally_step_credits metric X ti am gp gb nb rnd nb' H) as (idx & -> & _).
  by apply square_incr_at.
Qed.

Lemma bootstrap_loop_square X ti am gp gb nf ss k :
  ∀ nb (w w' : @world rng_state) nb',
    bootstrap_loop metric randint X ti am gp gb nf ss k nb w = (Ok nb', w') →
    square (length X) nb → square (length X) nb'.
Proof.
  induction k as [|k IH]; intros nb w w' nb' H Hsq; simpl in H.
  - by injection H as <- _.
  - destruct (iteration _ _ _ _ _ _ _ _ _ _ w) as [[nb1|e] w1] eqn:E; [|done].
    apply iteration_Ok in E as (rnd & E).
    eapply IH; [exact H|]. by eapply tally_step_square.
Qed.

Lemma bootstrap_neighbors_square X ti sigma sample_prop n_iter rd am gp gb
    (w w' : @world rng_state) F :
  bootstrap_neighbors metric randint X ti sigma sample_prop n_iter rd am gp gb w
  = (Ok F, w') →
  square (length X) F.
Proof.
  unfold bootstrap_neighbors.
  destruct (bootstrap_loop _ _ _ _ _ _ _ _ _ _ _ _) as [[nb|e] w1] eqn:E; [|done].
  intros [= <- _]. apply square_fmap.
  eapply bootstrap_loop_square; [exact E|]. apply square_zeros.
Qed.

(** X3.  The matrix [bootstrap_neighbors] returns has one row per row of
    [X] and one column per row of [X]. *)
Theorem bootstrap_neighbors_shape X ti sigma sample_prop n_iter rd am gp gb
    (w w' : @world rng_state) F :
  bootstrap_neighbors metric randint X ti sigma sample_prop n_iter rd am gp gb w
  = (Ok F, w') →
  length F = length X ∧ ∀ row, row ∈ F → length row = length X.
Proof.
  intros H. apply bootstrap_neighbors_square in H as [Hl Hr].
  split; [done|]. by apply Forall_forall.
Qed.

Lemma iteration_ticks_Raise X ti am gp gb nf ss nb (w w' : @world rng_state) e :
  iteration metric randint X ti am gp gb nf ss nb w = (Raise e, w') →
  ticks w' = ticks w.
Proof.
  unfold iteration. destruct (randint nf ss (rng w)) as [drawn g].
  destruct (_ ← drawn; _); [done|]. by intros [= _ <-].
Qed.

Lemma iteration_ticks_Ok X ti am gp gb nf ss nb (w w' : @world rng_state) nb' :
  iteration metric randint X ti am gp gb nf ss nb w = (Ok nb', w') →
  ticks w' = S (ticks w).
Proof.
  unfold iteration. destruct (randint nf ss (rng w)) as [drawn g].
  destruct (_ ← drawn; _); [|done]. by intros [= _ <-].
Qed.

Lemma bootstrap_loop_ticks_Raise X ti am gp gb nf ss k :
  ∀ nb (w w' : @world rng_state) e,
    bootstrap_loop metric randint X ti am gp gb nf ss k nb w = (Raise e, w') →
    ticks w ≤ ticks w' < ticks w + k.
Proof.
  induction k as [|k IH]; intros nb w w' e H; simpl in H; [done|].
  destruct (iteration _ _ _ _ _ _ _ _ _ _ w) as [[nb1|e1] w1] eqn:E.
  - apply iteration_ticks_Ok in E. apply IH in H. lia.
  - injection H as _ <-. apply iteration_ticks_Raise in E. lia.
Qed.

(** X4.  The progress bar receives one update per completed iteration:
    exactly [n_iter] when [bootstrap_neighbors] returns, fewer when it
    raises (the failing iteration is not reported and none follows). *)
Theorem bootstrap_neighbors_progress X ti sigma sample_prop n_iter rd am gp gb
    (w w' : @world rng_state) r :
  bootstrap_neighbors metric randint X ti sigma sample_prop n_iter rd am gp gb w
  = (r, w') →
  match r with
  | Ok _ => ticks w' = ticks w + n_iter
  | Raise _ => ticks w ≤ ticks w' < ticks w + n_iter
  end.
Proof.
  unfold bootstrap_neighbors.
  destruct (bootstrap_loop _ _ _ _ _ _ _ _ _ _ _ _) as [[nb|e] w1] eqn:E;
    intros [= <- <-].
  - by eapply bootstrap_loop_ticks.
  - by eapply bootstrap_loop_ticks_Raise.
Qed.
End ShapeFacts.

Lemma bootstrap_neighbors_shape_witness :
  length [[Fin (0 # 2); Fin (2 # 2)]; [Fin (2 # 2); Fin (0 # 2)]]
  = length [[1; 5]; [2; 7]]%Z
  ∧ ∀ row, row ∈ [[Fin (0 # 2); Fin (2 # 2)]; [Fin (2 # 2); Fin (0 # 2)]] →
           length row = length [[1; 5]; [2; 7]]%Z.
Proof.
  exact (bootstrap_neighbors_shape cityblock counter_randint
           [[1; 5]; [2; 7]]%Z None half (1 # 2) 2 false false false 5%Z w0
           (mkWorld 2 2)
           [[Fin (0 # 2); Fin (2 # 2)]; [Fin (2 # 2); Fin (0 # 2)]]
           ltac:(vm_compute; reflexivity)).
Defined.

Lemma bootstrap_neighbors_progress_witness :
  ticks (mkWorld 2 2) = ticks w0 + 2
  ∧ ticks w0 ≤ ticks (mkWorld 2 1) < ticks w0 + 3.
Proof.
  split.
  - exact (bootstrap_neighbors_progress cityblock counter_randint
             [[1; 5]; [2; 7]]%Z None half (1 # 2) 2 false false false 5%Z w0
             (mkWorld 2 2)
             (Ok [[Fin (0 # 2); Fin (2 # 2)]; [Fin (2 # 2); Fin (0 # 2)]])
             ltac:(vm_compute; reflexivity)).
  - exact (bootstrap_neighbors_progress cityblock counter_randint
             [[1; 5]; [2]]%Z None half (1 # 2) 3 false false false 5%Z w0
             (mkWorld 2 1) (Raise (IndexError "index is out of bounds"))
             ltac:(vm_compute; reflexivity)).
Defined.

(** ** Grouped distances inside the estimator *)




Lemma elem_of_mask_select {A} (mask : list bool) (X : list A) (x : A) :
  x ∈ mask_select mask X → x ∈ X.
Proof.
  revert X. induction mask as [|[] mask IH]; intros [|y X] H; simpl in H;
    try by apply elem_of_nil in H.
  - apply elem_of_cons in H as [->|H]; [left|right; by apply IH].
  - right. by apply IH.
Qed.

Lemma mask_select_nonempty {A} (P : Z → bool) (g : list Z) (X : list A) (y : Z) :
  length g = length X → y ∈ g → P y = true → mask_select (map P g) X ≠ [].
Proof.
  revert X. induction g as [|z g IH]; intros [|x X] Hl Hin HP; simpl in *;
    try done.
  - by apply elem_of_nil in Hin.
  - destruct (P z) eqn:Ez; [done|].
    apply elem_of_cons in Hin as [->|Hin]; [congruence|].
    apply IH; [lia|done|done].
Qed.

Lemma check_array_Ok {feat} (A : matrix feat) :
  check_array A = Ok tt ↔ ∃ r A', A = r :: A' ∧ r ≠ [].
Proof.
  unfold check_array. split.
  - destruct A as [|[|x r] A']; try done. intros _. by eexists _, _.
  - intros (r & A' & -> & Hr). by destruct r.
Qed.


Section GroupedInEstimator.
Context {feat rng_state : Type}.
Variable metric : list feat -> list feat -> float64.
Variable randint : Z -> Z -> rng_state -> result (list nat) * rng_state.



Lemma grouped_step_total (X : matrix feat) (g : list Z) dm yr :
  yr ∈ g → length g = length X → Forall (fun r => r ≠ []) X →
  ∃ dm', grouped_step metric X g dm yr = Ok dm'.
Proof.
  intros Hin Hl Hne. unfold grouped_step.
  rewrite (existsb_map_true (fun g0 => (g0 =? yr)%Z) g yr Hin (Z.eqb_refl _)).
  rewrite (existsb_map_true (fun g0 => (g0 <=? yr)%Z) g yr Hin (Z.leb_refl _)).
  simpl. rewrite (proj2 (Nat.eqb_eq _ _) Hl).
  assert (∀ P : Z → bool, P yr = true →
            check_array (mask_select (map P g) X) = Ok tt) as Hc.
  { intros P HP. apply check_array_Ok.
    pose proof (mask_select_nonempty P g X yr Hl Hin HP) as Hsel.
    destruct (mask_select (map P g) X) as [|r A'] eqn:E; [done|].
    exists r, A'. split; [done|]. rewrite Forall_forall in Hne. apply Hne.
    eapply elem_of_mask_select. rewrite E. by left. }
  unfold pairwise_distances. rsimpl.
  rewrite (Hc (fun g0 => (g0 =? yr)%Z) (Z.eqb_refl _)).
  rewrite (Hc (fun g0 => (g0 <=? yr)%Z) (Z.leb_refl _)). eauto.
Qed.

Lemma rfold_grouped_total (X : matrix feat) (g ys : list Z) :
  (∀ y, y ∈ ys → y ∈ g) → length g = length X → Forall (fun r => r ≠ []) X →
  ∀ dm, ∃ dm', rfold (grouped_step metric X g) dm ys = Ok dm'.
Proof.
  intros Hsub Hl Hne. induction ys as [|y ys IH]; intros dm; simpl; [eauto|].
  destruct (grouped_step_total X g dm y) as [dm1 E]; try done.
  { apply Hsub. by left. }
  rsimpl. rewrite E. apply IH. intros z Hz. apply Hsub. by right.
Qed.



Lemma tally_step_eq X ti am gp gb nb rnd :
  tally_step metric X ti am gp gb nb rnd
  = (_X ← take_columns X rnd;
     D ← dist_fn metric gp ti gb _X;
     dm ← masked ti D;
     credit (length X) am nb dm).
Proof. reflexivity. Qed.




End GroupedInEstimator.


(** ** One neighbour per item and iteration *)

Lemma argmin_from_bound (l : list float64) :
  ∀ mp bi i, bi < i → argmin_from mp bi i l < i + length l.
Proof.
  induction l as [|x l IH]; intros mp bi i Hbi; simpl; [lia|].
  destruct (isnan mp); [lia|].
  destruct (negb (fgeb x mp)).
  - specialize (IH x i (S i) ltac:(lia)). lia.
  - specialize (IH mp bi (S i) ltac:(lia)). lia.
Qed.

Lemma nanargmin_row_bound (row : list float64) (a : nat) :
  nanargmin_row row = Ok a → a < length row.
Proof.
  unfold nanargmin_row. destruct (_ && _); [done|].
  rewrite <- (length_map replace_nan row).
  destruct (map replace_nan row) as [|x l]; [done|]. simpl.
  intros [= <-]. pose proof (argmin_from_bound l x 0 1 ltac:(lia)). lia.
Qed.

Lemma elem_of_zip_seq {A} (n : nat) (l : list A) (i : nat) (x : A) :
  (i, x) ∈ zip (seq 0 n) l ↔ i < n ∧ l !! i = Some x.
Proof.
  split.
  - intros H. apply elem_of_lookup_zip_with in H as (k & i' & y & Heq & Hk & Hy).
    injection Heq as -> ->. apply lookup_seq in Hk as [-> Hk]. done.
  - intros [Hi Hx]. apply elem_of_lookup_zip_with. exists i, i, x.
    split; [done|]. split; [by apply lookup_seq|done].
Qed.

Lemma sum_imap_hit (a : nat) (row : list nat) :
  ∀ off,
    sum_list (imap (fun j c => if bool_decide (off + j = a) then S c else c) row)
    = sum_list row
      + (if bool_decide (off ≤ a ∧ a < off + length row) then 1 else 0).
Proof.
  induction row as [|x row IH]; intros off; simpl.
  - rewrite bool_decide_eq_false_2 by lia. done.
  - rewrite (imap_ext _ (fun j c => if bool_decide (S off + j = a) then S c else c)).
    2: { intros j c _. simpl. apply (f_equal (fun b : bool => if b then S c else c)).
         apply bool_decide_ext. lia. }
    rewrite IH. repeat case_bool_decide; lia.
Qed.

Lemma sum_imap_single (a : nat) (row : list nat) :
  a < length row →
  sum_list (imap (fun j c => if bool_decide (j = a) then S c else c) row)
  = S (sum_list row).
Proof.
  intros Ha. pose proof (sum_imap_hit a row 0) as H. simpl in H. rewrite H.
  rewrite bool_decide_eq_true_2 by lia. lia.
Qed.

Section RowSums.
Context {feat rng_state : Type}.
Variable metric : list feat -> list feat -> float64.
Variable randint : Z -> Z -> rng_state -> result (list nat) * rng_state.

(** The masked distances of an iteration that completes. *)
Lemma tally_step_masked X ti am gp gb nb rnd nb' :
  tally_step metric X ti am gp gb nb rnd = Ok nb' →
  ∃ dm, square (length X) dm ∧ credit (length X) am nb dm = Ok nb'.
Proof.
  rewrite tally_step_eq. unfold mbind, result_bind, rbind.
  destruct (take_columns X rnd) as [_X|e] eqn:EX; [|done].
  apply take_columns_shape in EX as [HlX _].
  destruct (dist_fn metric gp ti gb _X) as [D|e] eqn:ED; [|done].
  apply square_dist_fn in ED. rewrite HlX in ED.
  destruct (masked ti D) as [dm|e] eqn:EM; [|done].
  intros H. exists dm. split; [|done]. by eapply square_masked.
Qed.

Lemma credit_default n nb dm nb' :
  square n dm → square n nb → credit n false nb dm = Ok nb' →
  ∃ args, length args = n
          ∧ (∀ i a, args !! i = Some a → a < n)
          ∧ nb' = imap (fun i row =>
                    imap (fun j c =>
                      if bool_decide (args !! i = Some j) then S c else c) row) nb.
Proof.
  intros [Hld Hrd] [Hln Hrn]. unfold credit. rsimpl.
  destruct (nanargmin dm) as [args|e] eqn:EA; [|done]. intros [= <-].
  apply rmap_lookup in EA as [Hla HA]. exists args. split; [lia|]. split.
  - intros i a Ha. destruct (HA i a Ha) as (row & Hrow & Harg).
    apply nanargmin_row_bound in Harg. rewrite Forall_forall in Hrd.
    rewrite <- (Hrd row); [done|]. by eapply list_elem_of_lookup_2.
  - unfold incr_at. apply imap_ext. intros i row Hi. apply imap_ext.
    intros j c _. apply (f_equal (fun b : bool => if b then S c else c)).
    apply bool_decide_ext. rewrite elem_of_zip_seq.
    apply lookup_lt_Some in Hi. split; [tauto|]. intros ?. split; [lia|done].
Qed.

Lemma tally_step_row_sums X ti gp gb nb rnd nb' s :
  tally_step metric X ti false gp gb nb rnd = Ok nb' →
  square (length X) nb → row_sums s nb → row_sums (S s) nb'.
Proof.
  intros H Hsq Hs. apply tally_step_masked in H as (dm & Hdm & H).
  destruct (credit_default _ _ _ _ Hdm Hsq H) as (args & Hla & Hb & ->).
  destruct Hsq as [Hln Hrn]. unfold row_sums in *.
  apply Forall_forall. intros r Hin.
  apply elem_of_lookup_imap in Hin as (i & row & -> & Hi).
  rewrite Forall_forall in Hs, Hrn.
  assert (row ∈ nb) as Hrow by (by eapply list_elem_of_lookup_2).
  destruct (lookup_lt_is_Some_2 args i) as [a Ha];
    [rewrite Hla, <- Hln; by eapply lookup_lt_Some|].
  rewrite (imap_ext _ (fun j c => if bool_decide (j = a) then S c else c)).
  2: { intros j c _. simpl.
       apply (f_equal (fun b : bool => if b then S c else c)).
       apply bool_decide_ext. rewrite Ha. split; [by intros [= ->]|by intros ->]. }
  rewrite sum_imap_single; [by rewrite (Hs row Hrow)|].
  rewrite (Hrn row Hrow). by eapply Hb.
Qed.

Lemma bootstrap_loop_row_sums X ti gp gb nf ss k :
  ∀ nb (w w' : @world rng_state) nb' s,
    bootstrap_loop metric randint X ti false gp gb nf ss k nb w = (Ok nb', w') →
    square (length X) nb → row_sums s nb → row_sums (s + k) nb'.
Proof.
  induction k as [|k IH]; intros nb w w' nb' s H Hsq Hs; simpl in H.
  - injection H as <- _. by rewrite Nat.add_0_r.
  - destruct (iteration _ _ _ _ _ _ _ _ _ _ w) as [[nb1|e] w1] eqn:E; [|done].
    apply iteration_Ok in E as (rnd & E).
    replace (s + S k) with (S s + k) by lia.
    eapply IH; [exact H| |].
    + by eapply tally_step_square.
    + by eapply tally_step_row_sums.
Qed.

(** X6.  In default mode every item receives exactly one credit per
    iteration: each row of the returned matrix is a row of whole-number
    tallies that sum to [n_iter], divided by [n_iter]. *)
Theorem default_mode_row_sums X ti sigma sample_prop n_iter rd gp gb
    (w w' : @world rng_state) F :
  bootstrap_neighbors metric randint X ti sigma sample_prop n_iter rd false gp
    gb w = (Ok F, w') →
  ∀ row, row ∈ F →
    ∃ counts, row = map (fun c => fdiv_count c n_iter) counts
              ∧ sum_list counts = n_iter.
Proof.
  unfold bootstrap_neighbors.
  destruct (bootstrap_loop _ _ _ _ _ _ _ _ _ _ _ _) as [[nb|e] w1] eqn:E; [|done].
  intros [= <- _] row Hrow.
  apply list_elem_of_fmap in Hrow as (counts & -> & Hin).
  exists counts. split; [done|].
  assert (row_sums 0 (zeros 0 (length X) (length X))) as H0.
  { apply Forall_forall. intros r Hr. unfold zeros in Hr.
    apply elem_of_replicate in Hr as [-> _].
    clear. induction (length X) as [|n IH]; simpl; [done|]. by rewrite IH. }
  pose proof (bootstrap_loop_row_sums _ _ _ _ _ _ _ _ _ _ _ 0 E
                (square_zeros 0 (length X)) H0) as Hs.
  unfold row_sums in Hs. rewrite Forall_forall in Hs. by apply Hs.
Qed.

(** X7.  The cells an iteration credits always lie inside the tally: the
    in-place increment never reaches outside its [n] by [n] array. *)
Theorem tally_step_in_bounds X ti am gp gb nb rnd nb' :
  tally_step metric X ti am gp gb nb rnd = Ok nb' →
  ∃ idx, nb' = incr_at idx nb
         ∧ ∀ i j, (i, j) ∈ idx → i < length X ∧ j < length X.
Proof.
  intros H. apply tally_step_masked in H as (dm & Hdm & H).
  unfold credit in H. destruct am.
  - injection H as <-. eexists. split; [done|]. intros i j Hin.
    apply elem_of_all_argmin in Hin as (row & v & Hr & Hv & _).
    apply (square_cell _ dm i j Hdm). unfold cell. rewrite Hr. simpl. eauto.
  - rsimpl. destruct (nanargmin dm) as [args|e] eqn:EA; [|done].
    injection H as <-. eexists. split; [done|]. intros i j Hin.
    apply elem_of_zip_seq in Hin as [Hi Hj]. split; [done|].
    apply rmap_lookup in EA as [_ HA].
    destruct (HA i j Hj) as (row & Hrow & Harg).
    apply nanargmin_row_bound in Harg. destruct Hdm as [_ Hrd].
    rewrite Forall_forall in Hrd. rewrite <- (Hrd row); [done|].
    by eapply list_elem_of_lookup_2.
Qed.
End RowSums.

Lemma default_mode_row_sums_witness :
  ∃ counts, [Fin (0 # 2); Fin (2 # 2)] = map (fun c => fdiv_count c 2) counts
            ∧ sum_list counts = 2.
Proof.
  apply (default_mode_row_sums cityblock counter_randint
           [[1; 5]; [2; 7]]%Z None half (1 # 2) 2 false false 5%Z w0
           (mkWorld 2 2)
           [[Fin (0 # 2); Fin (2 # 2)]; [Fin (2 # 2); Fin (0 # 2)]]
           ltac:(vm_compute; reflexivity)).
  left.
Defined.

Lemma tally_step_in_bounds_witness :
  ∃ idx, [[0; 1]; [1; 0]] = incr_at idx (zeros 0 2 2)
         ∧ ∀ i j, (i, j) ∈ idx → i < 2 ∧ j < 2.
Proof.
  exact (tally_step_in_bounds cityblock [[1; 5]; [2; 7]]%Z None false false 5%Z
           (zeros 0 2 2) [0] [[0; 1]; [1; 0]] ltac:(vm_compute; reflexivity)).
Defined.

(** ** Nodes and dates of the graphs *)

Lemma touch_node_present (n : nat) (ns : gmap nat node_data) :
  is_Some (ns !! n) → touch_node n ns = ns.
Proof. intros [d Hd]. unfold touch_node. by rewrite Hd. Qed.

Lemma link_nodes (time_index : time_arg) (i n : nat) (G G' : DiGraph) :
  is_Some (nodes G !! i) → link time_index i G n = Ok G' →
  ∃ o, date_of time_index n = Ok o ∧ nodes G' = <[n := Date o]> (nodes G).
Proof.
  intros Hi. unfold link. rsimpl.
  destruct (date_of time_index n) as [o|e]; [|done]. intros [= <-].
  exists o. split; [done|]. simpl.
  rewrite (touch_node_present i).
  - apply touch_node_present. rewrite lookup_insert_eq. by eexists.
  - destruct (decide (n = i)) as [->|Hne].
    + rewrite lookup_insert_eq. by eexists.
    + by rewrite lookup_insert_ne.
Qed.

Lemma dated_insert (time_index : time_arg) (n : nat) o (ns : gmap nat node_data) :
  date_of time_index n = Ok o → dated time_index ns →
  dated time_index (<[n := Date o]> ns).
Proof.
  intros Ho Hd k d Hk. destruct (decide (n = k)) as [->|Hne].
  - rewrite lookup_insert_eq in Hk. injection Hk as <-. eauto.
  - rewrite lookup_insert_ne in Hk by done. by apply Hd.
Qed.

Lemma rfold_link_nodes (time_index : time_arg) (i : nat) (ns : list nat) :
  ∀ G G', is_Some (nodes G !! i) →
    rfold (link time_index i) G ns = Ok G' →
    dom (nodes G') = dom (nodes G) ∪ list_to_set ns
    ∧ (dated time_index (nodes G) → dated time_index (nodes G')).
Proof.
  induction ns as [|n ns IH]; intros G G' Hi H; rsimpl.
  - injection H as <-. split; [set_solver|done].
  - destruct (link time_index i G n) as [G1|e] eqn:E; [|done].
    apply link_nodes in E as (o & Ho & HG1); [|done].
    apply IH in H as [Hdom Hdated].
    + rewrite Hdom, HG1, dom_insert_L. split; [set_solver|].
      intros Hd. apply Hdated. rewrite HG1. by apply dated_insert.
    + rewrite HG1. destruct (decide (n = i)) as [->|Hne].
      * rewrite lookup_insert_eq. by eexists.
      * by rewrite lookup_insert_ne.
Qed.

Lemma to_graph_row_nodes time_index sigma only_best G i row G' :
  to_graph_row time_index sigma only_best G i row = Ok G' →
  ∃ ns, kept_neighbors sigma only_best row = Ok ns
        ∧ dom (nodes G') = dom (nodes G) ∪ {[ i ]} ∪ list_to_set ns
        ∧ (dated time_index (nodes G) → dated time_index (nodes G')).
Proof.
  unfold to_graph_row. rsimpl.
  destruct (date_of time_index i) as [o|e] eqn:Eo; [|done].
  destruct (kept_neighbors sigma only_best row) as [ns|e]; [|done].
  intros H. exists ns. split; [done|].
  apply rfold_link_nodes in H as [Hdom Hdated].
  - simpl in *. rewrite Hdom, dom_insert_L. split; [set_solver|].
    intros Hd. apply Hdated. by apply dated_insert.
  - simpl. rewrite lookup_insert_eq. by eexists.
Qed.

Lemma to_graph_rows_nodes time_index sigma only_best (rows : matrix float64) :
  ∀ i G G', to_graph_rows time_index sigma only_best i rows G = Ok G' →
    (∀ k, k ∈ dom (nodes G') ↔
          k ∈ dom (nodes G)
          ∨ (i ≤ k ∧ k < i + length rows)
          ∨ ∃ idx row ns, rows !! idx = Some row
                          ∧ kept_neighbors sigma only_best row = Ok ns
                          ∧ k ∈ ns)
    ∧ (dated time_index (nodes G) → dated time_index (nodes G')).
Proof.
  induction rows as [|row rows IH]; intros i G G' H; simpl in H.
  - injection H as <-. split; [|done]. intros k. split; [by left|].
    intros [?|[?|(idx & r & ns & Hidx & _)]]; [done|simpl in *; lia|].
    by rewrite lookup_nil in Hidx.
  - rsimpl.
    destruct (to_graph_row time_index sigma only_best G i row) as [G1|e] eqn:E;
      [|done].
    apply to_graph_row_nodes in E as (ns & Hns & Hdom & Hdated).
    apply IH in H as [Hk Hd]. split; [|by intros ?; apply Hd, Hdated].
    intros k. rewrite Hk, Hdom. split.
    + intros [Hin|[Hr|(idx & r & ns' & Hidx & Hkept & Hin)]].
      * apply elem_of_union in Hin as [Hin|Hin];
          [apply elem_of_union in Hin as [Hin|Hin]|].
        -- by left.
        -- apply elem_of_singleton in Hin as ->. right. left. lia.
        -- right. right. exists 0, row, ns. split; [done|]. split; [done|].
           by apply elem_of_list_to_set in Hin.
      * right. left. lia.
      * right. right. by exists (S idx), r, ns'.
    + intros [Hin|[Hr|(idx & r & ns' & Hidx & Hkept & Hin)]].
      * left. set_solver.
      * destruct (decide (k = i)) as [->|Hne]; [left; set_solver|].
        right. left. lia.
      * destruct idx as [|idx]; simpl in Hidx.
        -- injection Hidx as <-. rewrite Hns in Hkept. injection Hkept as <-.
           left. apply elem_of_union. right. by apply elem_of_list_to_set.
        -- right. right. by exists idx, r, ns'.
Qed.

Lemma kept_neighbors_bound sigma only_best (row : list float64) ns x :
  kept_neighbors sigma only_best row = Ok ns → x ∈ ns →
  ∃ v, row !! x = Some v ∧ fgeb v sigma = true.
Proof.
  unfold kept_neighbors. destruct only_best.
  - rsimpl. destruct (np_argmax row) as [best|e]; [|done].
    destruct (row !! best) as [v|] eqn:Ev; [|done]. intros [= <-].
    destruct (fgeb v sigma) eqn:Ege; [|by intros ?%elem_of_nil].
    intros ->%list_elem_of_singleton. eauto.
  - intros [= <-]. by intros ?%elem_of_where_ge.
Qed.

(** X8.  The nodes of the graph [to_graph] returns are the row numbers
    of [choices] and the targets of its edges, and nothing else. *)
Theorem to_graph_nodes (choices : matrix float64) (time_index : time_arg)
    (sigma : float64) (only_best : bool) (G : DiGraph) :
  to_graph choices time_index sigma only_best = Ok G →
  ∀ k, k ∈ dom (nodes G) ↔ k < length choices ∨ ∃ i, (i, k) ∈ edges G.
Proof.
  unfold to_graph. intros H k.
  destruct (to_graph_rows_nodes _ _ _ _ _ _ _ H) as [Hk _].
  pose proof (to_graph_rows_edges _ _ _ _ _ _ _ H) as HE.
  rewrite Hk. split.
  - intros [Hin|[Hr|(idx & r & ns & Hidx & Hkept & Hin)]].
    + simpl in Hin. set_solver.
    + left. lia.
    + right. exists idx. apply HE. right. by exists idx, r, ns, k.
  - intros [Hlt|[i Hin]]; [right; left; lia|].
    apply HE in Hin as [Hin|(idx & r & ns & x & Hidx & Hkept & Hx & Heq)];
      [set_solver|].
    injection Heq as -> ->. right. right. by exists idx, r, ns.
Qed.

(** X9.  Every node of the graph [to_graph] returns carries the date of
    its own position in the time index ([None] without a time index). *)
Theorem to_graph_dates (choices : matrix float64) (time_index : time_arg)
    (sigma : float64) (only_best : bool) (G : DiGraph) :
  to_graph choices time_index sigma only_best = Ok G →
  ∀ k d, nodes G !! k = Some d →
    ∃ o, date_of time_index k = Ok o ∧ d = Date o.
Proof.
  unfold to_graph. intros H.
  destruct (to_graph_rows_nodes _ _ _ _ _ _ _ H) as [_ Hd].
  apply Hd. intros k d Hk. simpl in Hk. by rewrite lookup_empty in Hk.
Qed.

(** X10.  The graph built with [only_best] is a subgraph of the graph
    built without it from the same matrix and threshold. *)
Theorem to_graph_best_subgraph (choices : matrix float64)
    (time_index : time_arg) (sigma : float64) (Gb Ga : DiGraph) :
  to_graph choices time_index sigma true = Ok Gb →
  to_graph choices time_index sigma false = Ok Ga →
  edges Gb ⊆ edges Ga ∧ dom (nodes Gb) ⊆ dom (nodes Ga).
Proof.
  unfold to_graph. intros Hb Ha.
  pose proof (to_graph_rows_edges _ _ _ _ _ _ _ Hb) as HEb.
  pose proof (to_graph_rows_edges _ _ _ _ _ _ _ Ha) as HEa.
  destruct (to_graph_rows_nodes _ _ _ _ _ _ _ Hb) as [Hkb _].
  destruct (to_graph_rows_nodes _ _ _ _ _ _ _ Ha) as [Hka _].
  assert (∀ idx r ns x, choices !! idx = Some r →
            kept_neighbors sigma true r = Ok ns → x ∈ ns →
            x ∈ where_ge r sigma) as Hsub.
  { intros idx r ns x _ Hkept Hx. apply elem_of_where_ge.
    by eapply kept_neighbors_bound. }
  split.
  - intros e He.
    apply HEb in He as [He|(idx & r & ns & x & Hidx & Hkept & Hx & ->)];
      [set_solver|].
    apply HEa. right. exists idx, r, (where_ge r sigma), x.
    repeat split; try done. by eapply Hsub.
  - intros k Hk.
    apply Hkb in Hk as [Hk|[Hk|(idx & r & ns & Hidx & Hkept & Hx)]].
    + simpl in Hk. set_solver.
    + apply Hka. right. by left.
    + apply Hka. right. right. exists idx, r, (where_ge r sigma).
      repeat split; try done. by eapply Hsub.
Qed.

Lemma fleb_trans (a b c : float64) :
  fleb a b = true → fleb b c = true → fleb a c = true.
Proof.
  destruct a as [x| | |], b as [y| | |], c as [z| | |]; simpl; try done.
  rewrite !Qle_bool_iff. apply Qle_trans.
Qed.

(** X11.  Raising the threshold only removes edges: without [only_best],
    the graph for the larger of two thresholds is a subgraph of the graph for
    the smaller. *)
Theorem to_graph_threshold_monotone (choices : matrix float64)
    (time_index : time_arg) (sigma1 sigma2 : float64) (G1 G2 : DiGraph) :
  fleb sigma1 sigma2 = true →
  to_graph choices time_index sigma1 false = Ok G1 →
  to_graph choices time_index sigma2 false = Ok G2 →
  edges G2 ⊆ edges G1 ∧ dom (nodes G2) ⊆ dom (nodes G1).
Proof.
  unfold to_graph. intros Hle H1 H2.
  pose proof (to_graph_rows_edges _ _ _ _ _ _ _ H1) as HE1.
  pose proof (to_graph_rows_edges _ _ _ _ _ _ _ H2) as HE2.
  destruct (to_graph_rows_nodes _ _ _ _ _ _ _ H1) as [Hk1 _].
  destruct (to_graph_rows_nodes _ _ _ _ _ _ _ H2) as [Hk2 _].
  assert (∀ r x, x ∈ where_ge r sigma2 → x ∈ where_ge r sigma1) as Hsub.
  { intros r x. rewrite !elem_of_where_ge. intros (v & Hv & Hge).
    exists v. split; [done|]. unfold fgeb in *. by eapply fleb_trans. }
  split.
  - intros e He.
    apply HE2 in He as [He|(idx & r & ns & x & Hidx & Hkept & Hx & ->)];
      [set_solver|].
    injection Hkept as <-. apply HE1. right.
    exists idx, r, (where_ge r sigma1), x. repeat split; try done. by apply Hsub.
  - intros k Hk.
    apply Hk2 in Hk as [Hk|[Hk|(idx & r & ns & Hidx & Hkept & Hx)]].
    + simpl in Hk. set_solver.
    + apply Hk1. right. by left.
    + injection Hkept as <-. apply Hk1. right. right.
      exists idx, r, (where_ge r sigma1). repeat split; try done. by apply Hsub.
Qed.

Lemma to_graph_nodes_witness :
  ∃ G, to_graph [[fzero; fone]; [fzero; fzero]] TFalse half false = Ok G
       ∧ ∀ k, k ∈ dom (nodes G) ↔ k < 2 ∨ ∃ i, (i, k) ∈ edges G.
Proof.
  eexists. split; [vm_compute; reflexivity|].
  refine (to_graph_nodes [[fzero; fone]; [fzero; fzero]] TFalse half false _ _).
  reflexivity.
Defined.

Lemma to_graph_dates_witness :
  ∃ G, to_graph [[fzero; fone]; [fzero; fzero]] (TIndex [y2000; y2001]) half
         false = Ok G
       ∧ ∀ k d, nodes G !! k = Some d →
           ∃ o, date_of (TIndex [y2000; y2001]) k = Ok o ∧ d = Date o.
Proof.
  eexists. split; [vm_compute; reflexivity|].
  refine (to_graph_dates [[fzero; fone]; [fzero; fzero]]
            (TIndex [y2000; y2001]) half false _ _).
  reflexivity.
Defined.

Lemma to_graph_best_subgraph_witness :
  ∃ Gb Ga,
    to_graph [[half; fone]; [fone; fzero]] TFalse half true = Ok Gb
    ∧ to_graph [[half; fone]; [fone; fzero]] TFalse half false = Ok Ga
    ∧ edges Gb ⊆ edges Ga ∧ dom (nodes Gb) ⊆ dom (nodes Ga).
Proof.
  do 2 eexists. split; [vm_compute; reflexivity|].
  split; [vm_compute; reflexivity|].
  refine (to_graph_best_subgraph [[half; fone]; [fone; fzero]] TFalse half
            _ _ _ _); reflexivity.
Defined.

Lemma to_graph_threshold_monotone_witness :
  ∃ G1 G2,
    to_graph [[half; fone]; [fone; fzero]] TFalse half false = Ok G1
    ∧ to_graph [[half; fone]; [fone; fzero]] TFalse fone false = Ok G2
    ∧ edges G2 ⊆ edges G1 ∧ dom (nodes G2) ⊆ dom (nodes G1).
Proof.
  do 2 eexists. split; [vm_compute; reflexivity|].
  split; [vm_compute; reflexivity|].
  refine (to_graph_threshold_monotone [[half; fone]; [fone; fzero]] TFalse
            half fone _ _ _ _ _); reflexivity.
Defined.

(** ** When [to_graph] returns and when it raises *)

Lemma covers_TFalse (n : nat) : covers TFalse n.
Proof. intros k _. by exists None. Qed.

Lemma covers_TIndex (ti : list Timestamp) (n : nat) :
  n ≤ length ti → covers (TIndex ti) n.
Proof.
  intros Hn k Hk. destruct (lookup_lt_is_Some_2 ti k) as [t Ht]; [lia|].
  exists (Some t). simpl. by rewrite Ht.
Qed.

Lemma link_Ok (time_index : time_arg) (i x : nat) (G : DiGraph) o :
  date_of time_index x = Ok o →
  link time_index i G x = Ok (add_edge i x (add_node x o G)).
Proof. intros Ho. unfold link. by rewrite Ho. Qed.

Lemma rfold_link_total (time_index : time_arg) (n i : nat) (ns : list nat) :
  covers time_index n → (∀ x, x ∈ ns → x < n) →
  ∀ G, ∃ G', rfold (link time_index i) G ns = Ok G'.
Proof.
  intros Hc. induction ns as [|x ns IH]; intros Hns G; cbn [rfold]; [eauto|].
  destruct (Hc x) as [o Ho]; [apply Hns; by left|].
  unfold mbind, result_bind, rbind. rewrite (link_Ok _ _ _ _ _ Ho).
  apply IH. intros y Hy. apply Hns. by right.
Qed.

Lemma to_graph_rows_total (time_index : time_arg) (sigma : float64) (n : nat)
    (rows : matrix float64) :
  covers time_index n → Forall (fun r => length r ≤ n) rows →
  ∀ i G, i + length rows ≤ n →
    ∃ G', to_graph_rows time_index sigma false i rows G = Ok G'.
Proof.
  intros Hc. induction rows as [|row rows IH]; intros Hr i G Hi;
    cbn [to_graph_rows]; [eauto|].
  apply Forall_cons in Hr as [Hrow Hr]. simpl in Hi.
  destruct (Hc i) as [o Ho]; [lia|].
  unfold to_graph_row, kept_neighbors. unfold mbind, result_bind, rbind.
  rewrite Ho.
  destruct (rfold_link_total time_index n i (where_ge row sigma) Hc) with
    (G := add_node i o G) as [G1 HG1].
  { intros x Hx. apply elem_of_where_ge in Hx as (v & Hv & _).
    apply lookup_lt_Some in Hv. lia. }
  rewrite HG1. apply IH; [done|lia].
Qed.

(** X12.  Without [only_best], [to_graph] returns a graph whenever the
    time index is left out ([False]) or has an entry for every row and every
    column of the matrix. *)
Theorem to_graph_returns (choices : matrix float64) (time_index : time_arg)
    (sigma : float64) :
  time_index = TFalse
  ∨ (∃ ti, time_index = TIndex ti
           ∧ length choices ≤ length ti
           ∧ Forall (fun r => length r ≤ length ti) choices) →
  ∃ G, to_graph choices time_index sigma false = Ok G.
Proof.
  unfold to_graph. intros [->|(ti & -> & Hl & Hr)].
  - set (n := max (length choices) (max_list (map length choices))).
    apply (to_graph_rows_total TFalse sigma n); [apply covers_TFalse| |lia].
    apply Forall_forall. intros r Hin.
    assert (length r ≤ max_list (map length choices)); [|lia].
    apply max_list_elem_of_le, list_elem_of_fmap. eauto.
  - apply (to_graph_rows_total (TIndex ti) sigma (length ti));
      [by apply covers_TIndex|done|lia].
Qed.

Lemma rfold_link_Raise (ti : list Timestamp) (i : nat) (ns : list nat) :
  ∀ G e, rfold (link (TIndex ti) i) G ns = Raise e → e = out_of_bounds.
Proof.
  induction ns as [|x ns IH]; intros G e H; cbn [rfold] in H; [done|].
  unfold mbind, result_bind, rbind in H.
  destruct (link (TIndex ti) i G x) as [G1|e1] eqn:E; [by eapply IH|].
  injection H as <-. unfold link in E. simpl in E.
  destruct (ti !! x); simpl in E; [done|]. by injection E as <-.
Qed.

Lemma to_graph_rows_short (ti : list Timestamp) (sigma : float64)
    (rows : matrix float64) :
  ∀ i G, i ≤ length ti → length ti < i + length rows →
    to_graph_rows (TIndex ti) sigma false i rows G = Raise out_of_bounds.
Proof.
  induction rows as [|row rows IH]; intros i G Hi Hlt; simpl in Hlt; [lia|].
  cbn [to_graph_rows]. unfold to_graph_row, kept_neighbors.
  unfold mbind, result_bind, rbind. cbn [date_of].
  destruct (ti !! i) as [t|] eqn:Et; [|done].
  apply lookup_lt_Some in Et.
  destruct (rfold (link (TIndex ti) i) _ (where_ge row sigma)) as [G1|e] eqn:E.
  - apply IH; lia.
  - by apply rfold_link_Raise in E as ->.
Qed.

(** X13.  On a matrix with at least one row [to_graph] raises [TypeError]
    when [time_index] is [None]; and, without [only_best], it raises
    [IndexError] when the time index is shorter than the matrix. *)
Theorem to_graph_raises (choices : matrix float64) (sigma : float64) :
  (∀ only_best, choices ≠ [] →
     to_graph choices TNone sigma only_best
     = Raise (TypeError "'NoneType' object is not subscriptable"))
  ∧ (∀ ti, length ti < length choices →
       ∃ msg, to_graph choices (TIndex ti) sigma false
              = Raise (IndexError msg)).
Proof.
  split.
  - intros only_best Hne. destruct choices as [|row rows]; [done|]. done.
  - intros ti Hlt. eexists. apply to_graph_rows_short; lia.
Qed.

(** ** The graph of [bootstrap_network] *)

Section NetworkFacts.
Context {feat rng_state : Type}.
Variable metric : list feat -> list feat -> float64.
Variable randint : Z -> Z -> rng_state -> result (list nat) * rng_state.

(** X14.  With [time_index=None], its default, [bootstrap_network] never
    returns a graph for a non-empty [X]: when the estimator and the label
    check pass, [to_graph] receives [None] as its time index and raises. *)
Theorem bootstrap_network_no_time_index X labels sigma sample_prop n_iter
    only_best all_min (w : @world rng_state) :
  X ≠ [] →
  ∀ G w',
    bootstrap_network metric randint X labels None sigma sample_prop n_iter
      only_best all_min w ≠ (Ok G, w').
Proof.
  intros HX G w'. unfold bootstrap_network.
  destruct (bootstrap_neighbors _ _ _ _ _ _ _ _ _ _ _ _) as [[F|e] w1] eqn:E;
    [|done].
  apply bootstrap_neighbors_square in E as [Hl _].
  destruct (check_labels labels (length X)); rsimpl; [|done].
  destruct F as [|row F]; [by destruct X|]. done.
Qed.

(** X15.  The graph [bootstrap_network] returns has exactly the row
    numbers of [X] as its nodes. *)
Theorem bootstrap_network_nodes X labels time_index sigma sample_prop n_iter
    only_best all_min (w w' : @world rng_state) G :
  bootstrap_network metric randint X labels time_index sigma sample_prop n_iter
    only_best all_min w = (Ok G, w') →
  ∀ k, k ∈ dom (nodes G) ↔ k < length X.
Proof.
  unfold bootstrap_network.
  destruct (bootstrap_neighbors _ _ _ _ _ _ _ _ _ _ _ _) as [[F|e] w1] eqn:E;
    [|done].
  apply bootstrap_neighbors_square in E as [Hl Hr].
  destruct (check_labels labels (length X)); rsimpl; [|done].
  intros H. injection H as H _. unfold to_graph in H.
  destruct (to_graph_rows_nodes _ _ _ _ _ _ _ H) as [Hk _].
  intros k. rewrite Hk. simpl. split.
  - intros [Hin|[Hlt|(idx & r & ns & Hidx & Hkept & Hin)]].
    + set_solver.
    + lia.
    + destruct (kept_neighbors_bound _ _ _ _ _ Hkept Hin) as (v & Hv & _).
      apply lookup_lt_Some in Hv. rewrite Forall_forall in Hr.
      rewrite <- (Hr r); [done|]. by eapply list_elem_of_lookup_2.
  - intros Hlt. right. left. lia.
Qed.
End NetworkFacts.

Lemma to_graph_returns_witness :
  ∃ G, to_graph [[fzero; fone]; [fzero; fzero]] (TIndex [y2000; y2001]) half
         false = Ok G.
Proof.
  apply to_graph_returns. right. exists [y2000; y2001].
  split; [reflexivity|]. split; [simpl; lia|].
  repeat constructor.
Defined.

Lemma to_graph_raises_witness :
  to_graph [[fzero]] TNone half true
  = Raise (TypeError "'NoneType' object is not subscriptable")
  ∧ ∃ msg, to_graph [[fzero; fone]; [fzero; fzero]] (TIndex [y2000]) half false
           = Raise (IndexError msg).
Proof.
  split.
  - apply (proj1 (to_graph_raises [[fzero]] half) true). discriminate.
  - apply (proj2 (to_graph_raises [[fzero; fone]; [fzero; fzero]] half)
             [y2000]).
    simpl. lia.
Defined.

Lemma bootstrap_network_no_time_index_witness :
  bootstrap_network cityblock counter_randint [[1; 5]; [2; 7]]%Z
    (Some ["a"; "b"]%string) None half (1 # 2) 2 false false w0
  = (Raise (TypeError "'NoneType' object is not subscriptable"), mkWorld 2 2)
  ∧ ∀ G w',
      bootstrap_network cityblock counter_randint [[1; 5]; [2; 7]]%Z
        (Some ["a"; "b"]%string) None half (1 # 2) 2 false false w0
      ≠ (Ok G, w').
Proof.
  split; [vm_compute; reflexivity|].
  apply (bootstrap_network_no_time_index cityblock counter_randint
           [[1; 5]; [2; 7]]%Z (Some ["a"; "b"]%string) half (1 # 2) 2 false
           false w0).
  discriminate.
Defined.

Lemma bootstrap_network_nodes_witness :
  ∃ G w',
    bootstrap_network cityblock counter_randint [[1; 5]; [2; 7]]%Z
      (Some ["a"; "b"]%string) (Some [y2000; y2001]) half (1 # 2) 2 false false
      w0 = (Ok G, w')
    ∧ ∀ k, k ∈ dom (nodes G) ↔ k < 2.
Proof.
  do 2 eexists. split; [vm_compute; reflexivity|].
  refine (bootstrap_network_nodes cityblock counter_randint [[1; 5]; [2; 7]]%Z
            (Some ["a"; "b"]%string) (Some [y2000; y2001]) half (1 # 2) 2 false
            false w0 _ _ _).
  vm_compute. reflexivity.
Defined.

(** ** The sequence of graphs of [evolving_graphs] *)

Lemma subgraph_refl (G : DiGraph) : subgraph G G.
Proof. by split. Qed.

Lemma subgraph_trans (G1 G2 G3 : DiGraph) :
  subgraph G1 G2 → subgraph G2 G3 → subgraph G1 G3.
Proof. intros [? ?] [? ?]. split; set_solver. Qed.

Lemma evolve_row_grows time_index sigma i G row st' :
  evolve_row time_index sigma (i, G) row = Ok st' →
  subgraph G st'.2
  ∧ (dated (TIndex time_index) (nodes G) →
     dated (TIndex time_index) (nodes st'.2)).
Proof.
  rewrite evolve_row_to_graph_row. unfold mbind, result_bind, rbind.
  destruct (to_graph_row _ _ _ _ _ _) as [G1|e] eqn:E; [|done].
  intros [= <-]. simpl.
  pose proof (to_graph_row_edges _ _ _ _ _ _ _ E) as (ns & _ & HE).
  pose proof (to_graph_row_nodes _ _ _ _ _ _ _ E) as (ns' & _ & HN & HD).
  split; [|done]. split; set_solver.
Qed.

Lemma evolve_rows_grow time_index sigma (rows : matrix float64) :
  ∀ st st', rfold (evolve_row time_index sigma) st rows = Ok st' →
    subgraph st.2 st'.2
    ∧ (dated (TIndex time_index) (nodes st.2) →
       dated (TIndex time_index) (nodes st'.2)).
Proof.
  induction rows as [|row rows IH]; intros st st' H; cbn [rfold] in H.
  - injection H as <-. split; [apply subgraph_refl|done].
  - unfold mbind, result_bind, rbind in H.
    destruct (evolve_row time_index sigma st row) as [st1|e] eqn:E; [|done].
    destruct st as [i G]. apply evolve_row_grows in E as [Hs Hd].
    apply IH in H as [Hs' Hd']. split; [by eapply subgraph_trans|tauto].
Qed.

Lemma evolve_groups_chain time_index sigma (groups : list (Z * matrix float64)) :
  ∀ st ys, evolve_groups time_index sigma groups st = Ok ys →
    map fst ys = map fst groups
    ∧ Forall (fun y => subgraph st.2 y.2
                       ∧ (dated (TIndex time_index) (nodes st.2) →
                          dated (TIndex time_index) (nodes y.2))) ys
    ∧ ∀ a b ya yb, a ≤ b → ys !! a = Some ya → ys !! b = Some yb →
        subgraph ya.2 yb.2.
Proof.
  induction groups as [|[gid stories] groups IH]; intros st ys H; simpl in H.
  - injection H as <-. split; [done|]. split; [constructor|].
    intros a b ya yb _ Ha. by rewrite lookup_nil in Ha.
  - unfold mbind, result_bind, rbind in H.
    destruct (rfold (evolve_row time_index sigma) st stories) as [st1|e] eqn:E1;
      [|done].
    destruct (evolve_groups time_index sigma groups st1) as [later|e] eqn:E2;
      [|done].
    injection H as <-. apply evolve_rows_grow in E1 as [Hs1 Hd1].
    apply IH in E2 as (Hkeys & Hall & Hchain).
    split; [simpl; by rewrite Hkeys|]. split.
    + constructor; [done|]. eapply Forall_impl; [exact Hall|].
      intros y [Hy Hdy]. split; [by eapply subgraph_trans|tauto].
    + intros a b ya yb Hab Ha Hb. destruct a as [|a], b as [|b]; simpl in *.
      * injection Ha as <-. injection Hb as <-. apply subgraph_refl.
      * injection Ha as <-. simpl. rewrite Forall_forall in Hall.
        apply (Hall yb). by eapply list_elem_of_lookup_2.
      * lia.
      * eapply (Hchain a b); [lia|done|done].
Qed.

(** X16.  The graph of [evolving_graphs] only grows: its content at a
    later yield has every node and every edge of its content at an earlier
    yield. *)
Theorem evolving_graphs_cumulative (choices : matrix float64)
    (time_index : list Timestamp) (groupby : Timestamp → Z) (sigma : float64)
    (Gs : list (Z * DiGraph)) :
  evolving_graphs choices time_index groupby sigma = Ok Gs →
  ∀ a b ya yb, a ≤ b → Gs !! a = Some ya → Gs !! b = Some yb →
    subgraph ya.2 yb.2.
Proof.
  unfold evolving_graphs. destruct (_ =? _); [|done]. intros H.
  by apply evolve_groups_chain in H as (_ & _ & Hchain).
Qed.

Lemma elem_of_insert_by_time {A} (x y : Timestamp * A) (l : list (Timestamp * A)) :
  y ∈ insert_by_time x l ↔ y = x ∨ y ∈ l.
Proof.
  induction l as [|z l IH]; simpl; [set_solver|].
  destruct (ts_leb x.1 z.1); [set_solver|].
  rewrite elem_of_cons, IH, elem_of_cons. tauto.
Qed.

Lemma elem_of_sort_index {A} (y : Timestamp * A) (df : list (Timestamp * A)) :
  y ∈ sort_index df ↔ y ∈ df.
Proof.
  induction df as [|x df IH]; simpl; [done|].
  rewrite elem_of_insert_by_time, IH, elem_of_cons. tauto.
Qed.

(** X17.  [evolving_graphs] yields one graph per distinct group key, in
    strictly ascending order of the keys; the keys are exactly the values of
    the grouping function on the time index. *)
Theorem evolving_graphs_keys (choices : matrix float64)
    (time_index : list Timestamp) (groupby : Timestamp → Z) (sigma : float64)
    (Gs : list (Z * DiGraph)) :
  evolving_graphs choices time_index groupby sigma = Ok Gs →
  StronglySorted Z.lt (map fst Gs)
  ∧ ∀ key, key ∈ map fst Gs ↔ ∃ t, t ∈ time_index ∧ groupby t = key.
Proof.
  unfold evolving_graphs. destruct (_ =? _) eqn:El; [|done].
  apply Nat.eqb_eq in El. intros H.
  apply evolve_groups_chain in H as (Hkeys & _ & _). rewrite Hkeys.
  unfold group_frame. rewrite map_map. simpl. rewrite map_id.
  split; [apply np_unique_sorted|]. intros key.
  rewrite elem_of_np_unique, list_elem_of_fmap. split.
  - intros ([t row] & -> & Hin). apply (proj1 (elem_of_sort_index _ _)) in Hin.
    exists t. split; [|done]. by eapply elem_of_zip_l.
  - intros (t & Hin & <-).
    apply list_elem_of_lookup in Hin as [i Hi].
    destruct (lookup_lt_is_Some_2 choices i) as [row Hrow];
      [rewrite El; by eapply lookup_lt_Some|].
    exists (t, row). split; [done|]. apply (proj2 (elem_of_sort_index _ _)).
    apply list_elem_of_lookup. exists i. apply lookup_zip_with_Some. eauto.
Qed.

(** X18.  The last graph [evolving_graphs] yields is the graph [to_graph]
    builds from the rows taken in processing order (sorted by timestamp,
    then grouped by key), whatever the order of the rows in [choices]: row
    numbers follow the processing order, column numbers do not. *)
Theorem evolving_graphs_last (choices : matrix float64)
    (time_index : list Timestamp) (groupby : Timestamp → Z) (sigma : float64)
    (Gs : list (Z * DiGraph)) (key : Z) (G : DiGraph) :
  evolving_graphs choices time_index groupby sigma = Ok Gs →
  last Gs = Some (key, G) →
  to_graph (processing_order groupby time_index choices) (TIndex time_index)
    sigma false = Ok G.
Proof.
  unfold evolving_graphs, to_graph, processing_order.
  destruct (_ =? _); [|done]. intros H Hlast.
  destruct (evolve_groups_last _ _ _ _ _ _ _ H Hlast) as (i & Hi).
  rewrite evolve_rows_to_graph_rows in Hi.
  unfold mbind, result_bind, rbind in Hi.
  destruct (to_graph_rows _ _ _ _ _ _) as [G'|e]; [|done]. by injection Hi as _ <-.
Qed.

(** X19.  Every node of every graph [evolving_graphs] yields carries the
    date found at its own number in [time_index]. *)
Theorem evolving_graphs_dates (choices : matrix float64)
    (time_index : list Timestamp) (groupby : Timestamp → Z) (sigma : float64)
    (Gs : list (Z * DiGraph)) :
  evolving_graphs choices time_index groupby sigma = Ok Gs →
  ∀ key G k d, (key, G) ∈ Gs → nodes G !! k = Some d →
    ∃ t, time_index !! k = Some t ∧ d = Date (Some t).
Proof.
  unfold evolving_graphs. destruct (_ =? _); [|done]. intros H key G k d Hin Hk.
  apply evolve_groups_chain in H as (_ & Hall & _).
  rewrite Forall_forall in Hall. destruct (Hall _ Hin) as [_ Hd].
  assert (dated (TIndex time_index) (nodes (0, empty_graph).2)) as H0.
  { intros k' d' Hk'. simpl in Hk'. by rewrite lookup_empty in Hk'. }
  destruct (Hd H0 k d Hk) as (o & Ho & ->).
  simpl in Ho. destruct (time_index !! k) as [t|]; [|done].
  injection Ho as <-. eauto.
Qed.

Lemma evolving_graphs_cumulative_witness :
  ∃ Gs,
    evolving_graphs [[fzero; fone]; [fzero; fzero]] [y2001; y2000] year half
    = Ok Gs
    ∧ ∀ a b ya yb, a ≤ b → Gs !! a = Some ya → Gs !! b = Some yb →
        subgraph ya.2 yb.2.
Proof.
  eexists. split; [vm_compute; reflexivity|].
  refine (evolving_graphs_cumulative [[fzero; fone]; [fzero; fzero]]
            [y2001; y2000] year half _ _).
  reflexivity.
Defined.

Lemma evolving_graphs_keys_witness :
  ∃ Gs,
    evolving_graphs [[fzero; fone]; [fzero; fzero]] [y2001; y2000] year half
    = Ok Gs
    ∧ StronglySorted Z.lt (map fst Gs)
    ∧ ∀ key, key ∈ map fst Gs ↔ ∃ t, t ∈ [y2001; y2000] ∧ year t = key.
Proof.
  eexists. split; [vm_compute; reflexivity|].
  refine (evolving_graphs_keys [[fzero; fone]; [fzero; fzero]]
            [y2001; y2000] year half _ _).
  reflexivity.
Defined.

Lemma evolving_graphs_last_witness :
  ∃ G,
    to_graph (processing_order year [y2001; y2000]
                [[fzero; fone]; [fzero; fzero]])
      (TIndex [y2001; y2000]) half false = Ok G
    ∧ edges G = {[ (1, 1) ]}.
Proof.
  eexists. split.
  - refine (evolving_graphs_last [[fzero; fone]; [fzero; fzero]]
              [y2001; y2000] year half _ 2001%Z _ _ _);
      [vm_compute; reflexivity|reflexivity].
  - vm_compute. reflexivity.
Defined.

Lemma evolving_graphs_dates_witness :
  ∃ Gs,
    evolving_graphs [[fzero; fone]; [fzero; fzero]] [y2001; y2000] year half
    = Ok Gs
    ∧ ∀ key G k d, (key, G) ∈ Gs → nodes G !! k = Some d →
        ∃ t, [y2001; y2000] !! k = Some t ∧ d = Date (Some t).
Proof.
  eexists. split; [vm_compute; reflexivity|].
  refine (evolving_graphs_dates [[fzero; fone]; [fzero; fzero]]
            [y2001; y2000] year half _ _).
  reflexivity.
Defined.

(** ** [time_grouped_pairwise_distances]: shape and bounds *)

Section GroupedShape.
Context {feat : Type}.
Variable metric : list feat -> list feat -> float64.



End GroupedShape.

(** ** [all_argmin] *)

Lemma fltb_irrefl (a : float64) : fltb a a = false.
Proof.
  destruct a as [x| | |]; simpl; try done.
  apply negb_false_iff, Qle_bool_iff, Qle_refl.
Qed.

Lemma fltb_asym (a b : float64) : fltb a b = true → fltb b a = false.
Proof.
  destruct a as [x| | |], b as [y| | |]; simpl; try done.
  rewrite negb_true_iff, negb_false_iff. intros H. apply Qle_bool_iff.
  destruct (Qlt_le_dec y x) as [Hlt|Hle].
  - apply Qlt_le_weak in Hlt. apply Qle_bool_iff in Hlt. congruence.
  - exact Hle.
Qed.

Lemma fltb_none_below (x r y : float64) :
  isnan x = false → isnan r = false → isnan y = false →
  fltb y r = false → fltb r x = false → fltb y x = false.
Proof.
  destruct x as [a| | |], r as [b| | |], y as [c| | |]; simpl; try done.
  rewrite !negb_false_iff, !Qle_bool_iff. intros _ _ _ H1 H2.
  by eapply Qle_trans.
Qed.

(** [np.nanmin] of a row is NaN when every entry is NaN; otherwise it is
    an entry of the row, and no entry is below it. *)
Lemma nanmin_row_spec (row : list float64) :
  (nanmin_row row = NaN ∧ Forall (fun x => x = NaN) row)
  ∨ (nanmin_row row ∈ row ∧ isnan (nanmin_row row) = false
     ∧ Forall (fun x => x = NaN ∨ fltb x (nanmin_row row) = false) row).
Proof.
  induction row as [|x l IH]; [left; by split|].
  change (nanmin_row (x :: l)) with (fmin x (nanmin_row l)).
  set (r := nanmin_row l) in *. unfold fmin.
  destruct (isnan x) eqn:Ex.
  - assert (x = NaN) as -> by (by destruct x).
    destruct IH as [[Hr Hall]|(Hin & Hr & Hall)].
    + left. split; [done|]. by constructor.
    + right. split; [by right|]. split; [done|]. constructor; [by left|done].
  - destruct (isnan r) eqn:Er.
    + destruct IH as [[_ Hall]|(_ & Hr & _)]; [|congruence].
      right. split; [by left|]. split; [done|].
      constructor; [right; apply fltb_irrefl|].
      eapply Forall_impl; [exact Hall|]. intros; by left.
    + destruct IH as [[Hr _]|(Hin & _ & Hall)]; [by rewrite Hr in Er|].
      destruct (fltb r x) eqn:Elt.
      * right. split; [by right|]. split; [done|].
        constructor; [right; by apply fltb_asym|done].
      * right. split; [by left|]. split; [done|].
        constructor; [right; apply fltb_irrefl|].
        eapply Forall_impl; [exact Hall|]. intros y [->|Hy]; [by left|].
        destruct (isnan y) eqn:Ey; [left; by destruct y|right].
        by apply (fltb_none_below x r y).
Qed.

Lemma elem_of_all_argmin_2 (dm : matrix float64) (tol : float64) (i j : nat)
    (row : list float64) (v : float64) :
  dm !! i = Some row → row !! j = Some v →
  fltb (fabs (fsub v (nanmin_row row))) tol = true →
  (i, j) ∈ all_argmin dm tol.
Proof.
  intros Hr Hv Hlt. unfold all_argmin.
  apply list_elem_of_In, in_concat. eexists. split.
  - apply list_elem_of_In, elem_of_lookup_imap. exists i, row.
    split; [reflexivity|done].
  - simpl. apply list_elem_of_In, list_elem_of_omap. exists (Some (i, j)).
    split; [|done].
    apply elem_of_lookup_imap. exists j, v. by rewrite Hlt.
Qed.

(** X21.  [all_argmin] only returns cells that hold a finite number; and
    in every row that holds a finite number and no negative infinity it
    returns a cell holding the row's minimum, for a positive tolerance. *)
Theorem all_argmin_minimum (dm : matrix float64) (t : Q) :
  (∀ i j, (i, j) ∈ all_argmin dm (Fin t) →
          ∃ q, cell dm i j = Some (Fin q))
  ∧ (∀ i row q, (0 < t)%Q → dm !! i = Some row → Fin q ∈ row → NInf ∉ row →
       ∃ j qm, (i, j) ∈ all_argmin dm (Fin t)
               ∧ row !! j = Some (Fin qm) ∧ nanmin_row row = Fin qm).
Proof.
  split.
  - intros i j Hin. apply elem_of_all_argmin in Hin as (row & v & Hr & Hv & Hlt).
    unfold cell. rewrite Hr. simpl. rewrite Hv.
    destruct v as [q| | |], (nanmin_row row); simpl in Hlt; try done; eauto.
  - intros i row q Ht Hr Hq Hninf.
    destruct (nanmin_row_spec row) as [[_ Hall]|(Hin & Hnan & Hall)].
    { rewrite Forall_forall in Hall. by specialize (Hall _ Hq). }
    rewrite Forall_forall in Hall. destruct (Hall _ Hq) as [?|Hlt]; [done|].
    destruct (nanmin_row row) as [qm| | |] eqn:Em; try done.
    apply list_elem_of_lookup in Hin as [j Hj].
    exists j, qm. split; [|done].
    eapply elem_of_all_argmin_2; [done|done|]. rewrite Em. simpl.
    apply negb_true_iff. destruct (Qle_bool t (Qabs (qm - qm))) eqn:E; [|done].
    apply Qle_bool_iff in E. exfalso.
    assert (Qabs (qm - qm) == 0)%Q as H0.
    { rewrite (Qabs_wd (qm - qm) 0); [done|]. ring. }
    rewrite H0 in E. by apply Qle_not_lt in E.
Qed.


Lemma all_argmin_minimum_witness :
  (∃ q, cell [[PInf; Fin 1; Fin 1]] 0 2 = Some (Fin q))
  ∧ ∃ j qm, (0, j) ∈ all_argmin [[PInf; Fin 1; Fin 1]] default_tol
            ∧ [PInf; Fin 1; Fin 1] !! j = Some (Fin qm)
            ∧ nanmin_row [PInf; Fin 1; Fin 1] = Fin qm.
Proof.
  split.
  - apply (proj1 (all_argmin_minimum [[PInf; Fin 1; Fin 1]] (1 # 1000)) 0 2).
    vm_compute. right. left.
  - apply (proj2 (all_argmin_minimum [[PInf; Fin 1; Fin 1]] (1 # 1000))
             0 [PInf; Fin 1; Fin 1] 1%Q).
    + reflexivity.
    + reflexivity.
    + right. left.
    + rewrite !elem_of_cons, elem_of_nil.
      intros [?|[?|[?|[]]]]; discriminate.
Defined.

(** ** What the estimator requires of its time index *)

Section TimeIndexFacts.
Context {feat rng_state : Type}.
Variable metric : list feat -> list feat -> float64.
Variable randint : Z -> Z -> rng_state -> result (list nat) * rng_state.


End TimeIndexFacts.

(** ** The neighbour kept by [only_best] *)

Lemma fleb_total (a b : float64) :
  isnan a = false → isnan b = false → fleb a b = false → fleb b a = true.
Proof.
  destruct a as [x| | |], b as [y| | |]; simpl; try done.
  intros _ _ H. apply Qle_bool_iff.
  destruct (Qlt_le_dec y x) as [Hlt|Hle].
  - by apply Qlt_le_weak.
  - apply Qle_bool_iff in Hle. congruence.
Qed.

Lemma fleb_refl (a : float64) : isnan a = false → fleb a a = true.
Proof. destruct a; simpl; try done. intros _. apply Qle_bool_iff, Qle_refl. Qed.

(** On a row without NaN the arg-max scan ends on an entry that no entry
    exceeds. *)
Lemma argmax_from_max (l : list float64) :
  ∀ mp bi i,
    isnan mp = false → Forall (fun x => isnan x = false) l →
    ∃ v, isnan v = false ∧ fleb mp v = true
         ∧ Forall (fun x => fleb x v = true) l
         ∧ ((argmax_from mp bi i l = bi ∧ v = mp)
            ∨ ∃ k, argmax_from mp bi i l = i + k ∧ l !! k = Some v).
Proof.
  induction l as [|x l IH]; intros mp bi i Hmp Hl; simpl.
  - exists mp. repeat split; [done|by apply fleb_refl|constructor|by left].
  - rewrite Hmp. apply Forall_cons in Hl as [Hx Hl].
    destruct (negb (fleb x mp)) eqn:E.
    + apply negb_true_iff in E.
      destruct (IH x i (S i) Hx Hl) as (v & Hv & Hxv & Hall & Hres).
      exists v. split; [done|]. split.
      { eapply fleb_trans; [|exact Hxv]. by apply fleb_total. }
      split; [by constructor|]. right.
      destruct Hres as [[Er ->]|(k & Er & Hk)].
      * exists 0. rewrite Er. split; [lia|done].
      * exists (S k). rewrite Er. split; [lia|done].
    + apply negb_false_iff in E.
      destruct (IH mp bi (S i) Hmp Hl) as (v & Hv & Hmv & Hall & Hres).
      exists v. split; [done|]. split; [done|]. split.
      { constructor; [by eapply fleb_trans|done]. }
      destruct Hres as [[Er ->]|(k & Er & Hk)]; [by left|right].
      exists (S k). rewrite Er. split; [lia|done].
Qed.

Lemma np_argmax_max (row : list float64) (best : nat) :
  np_argmax row = Ok best → Forall (fun x => isnan x = false) row →
  ∃ v, row !! best = Some v ∧ Forall (fun x => fleb x v = true) row.
Proof.
  destruct row as [|x l]; [done|]. simpl. intros [= <-] Hl.
  apply Forall_cons in Hl as [Hx Hl].
  destruct (argmax_from_max l x 0 1 Hx Hl) as (v & _ & Hxv & Hall & Hres).
  exists v. split; [|by constructor].
  destruct Hres as [[-> ->]|(k & -> & Hk)]; done.
Qed.

(** X23.  With [only_best], an edge [(i, j)] of the graph means that the
    frequency at [(i, j)] reaches the threshold and, when row [i] holds no
    NaN, that no frequency of row [i] exceeds it. *)
Theorem to_graph_best_is_maximum (choices : matrix float64)
    (time_index : time_arg) (sigma : float64) (G : DiGraph) (i j : nat) :
  to_graph choices time_index sigma true = Ok G →
  (i, j) ∈ edges G →
  ∃ row v, choices !! i = Some row ∧ row !! j = Some v
           ∧ fgeb v sigma = true
           ∧ (Forall (fun x => isnan x = false) row →
              Forall (fun x => fleb x v = true) row).
Proof.
  unfold to_graph. intros H Hin.
  apply (to_graph_rows_edges _ _ _ _ _ _ _ H) in Hin
    as [Hin|(idx & row & ns & x & Hidx & Hkept & Hx & Heq)]; [set_solver|].
  injection Heq as -> ->. exists row.
  unfold kept_neighbors in Hkept. unfold mbind, result_bind, rbind in Hkept.
  destruct (np_argmax row) as [best|e] eqn:Eb; [|done].
  destruct (row !! best) as [v|] eqn:Ev; [|done]. injection Hkept as <-.
  destruct (fgeb v sigma) eqn:Ege; [|by apply elem_of_nil in Hx].
  apply list_elem_of_singleton in Hx as ->. exists v. repeat split; try done.
  intros Hnn. destruct (np_argmax_max row best Eb Hnn) as (v' & Hv' & Hall).
  rewrite Ev in Hv'. by injection Hv' as <-.
Qed.


Lemma to_graph_best_is_maximum_witness :
  ∃ row v, [[half; fone]; [fone; fzero]] !! 0 = Some row ∧ row !! 1 = Some v
           ∧ fgeb v half = true
           ∧ (Forall (fun x => isnan x = false) row →
              Forall (fun x => fleb x v = true) row).
Proof.
  refine (to_graph_best_is_maximum [[half; fone]; [fone; fzero]] TFalse half
            _ 0 1 eq_refl _).
  vm_compute. reflexivity.
Defined.

(** ** Default selection and all-minima selection *)

(** On a row without NaN the arg-min scan ends on an entry that no entry
    is below. *)
Lemma argmin_from_min (l : list float64) :
  ∀ mp bi i,
    isnan mp = false → Forall (fun x => isnan x = false) l →
    ∃ v, isnan v = false ∧ fleb v mp = true
         ∧ Forall (fun x => fleb v x = true) l
         ∧ ((argmin_from mp bi i l = bi ∧ v = mp)
            ∨ ∃ k, argmin_from mp bi i l = i + k ∧ l !! k = Some v).
Proof.
  induction l as [|x l IH]; intros mp bi i Hmp Hl; simpl.
  - exists mp. repeat split; [done|by apply fleb_refl|constructor|by left].
  - rewrite Hmp. apply Forall_cons in Hl as [Hx Hl].
    destruct (negb (fgeb x mp)) eqn:E.
    + apply negb_true_iff in E. unfold fgeb in E.
      destruct (IH x i (S i) Hx Hl) as (v & Hv & Hvx & Hall & Hres).
      exists v. split; [done|]. split.
      { eapply fleb_trans; [exact Hvx|]. by apply fleb_total. }
      split; [by constructor|]. right.
      destruct Hres as [[Er ->]|(k & Er & Hk)].
      * exists 0. rewrite Er. split; [lia|done].
      * exists (S k). rewrite Er. split; [lia|done].
    + apply negb_false_iff in E. unfold fgeb in E.
      destruct (IH mp bi (S i) Hmp Hl) as (v & Hv & Hvm & Hall & Hres).
      exists v. split; [done|]. split; [done|]. split.
      { constructor; [by eapply fleb_trans|done]. }
      destruct Hres as [[Er ->]|(k & Er & Hk)]; [by left|right].
      exists (S k). rewrite Er. split; [lia|done].
Qed.

Lemma nanargmin_row_min (row : list float64) (a : nat) :
  nanargmin_row row = Ok a →
  ∃ y, row !! a = Some y
       ∧ Forall (fun x => fleb (replace_nan y) (replace_nan x) = true) row.
Proof.
  unfold nanargmin_row. destruct (_ && _); [done|]. intros H.
  assert (Forall (fun x => isnan x = false) (map replace_nan row)) as Hnn.
  { apply Forall_fmap, Forall_forall. intros x _. by destruct x. }
  assert (∃ v, map replace_nan row !! a = Some v
               ∧ Forall (fun x => fleb v x = true) (map replace_nan row))
    as (v & Hv & Hall).
  { destruct (map replace_nan row) as [|x l]; [done|]. simpl in H.
    injection H as <-. apply Forall_cons in Hnn as [Hx Hl].
    destruct (argmin_from_min l x 0 1 Hx Hl) as (v & _ & Hvx & Hall & Hres).
    exists v. split; [|by constructor].
    destruct Hres as [[-> ->]|(k & -> & Hk)]; done. }
  change (map replace_nan row) with (replace_nan <$> row) in Hv.
  rewrite list_lookup_fmap in Hv.
  destruct (row !! a) as [y|] eqn:Hy; [|done]. injection Hv as <-.
  exists y. split; [done|]. by apply Forall_fmap in Hall.
Qed.

(** X24.  In a row that holds a finite number and no negative infinity,
    the one cell the default selection ([np.nanargmin]) credits is among
    the cells the all-minima selection ([all_argmin]) credits, for every
    positive tolerance. *)
Theorem default_choice_among_all_minima (dm : matrix float64) (t : Q)
    (i a : nat) (row : list float64) (q : Q) :
  (0 < t)%Q → dm !! i = Some row → Fin q ∈ row → NInf ∉ row →
  nanargmin_row row = Ok a →
  (i, a) ∈ all_argmin dm (Fin t).
Proof.
  intros Ht Hr Hq Hninf Ha.
  destruct (nanargmin_row_min row a Ha) as (y & Hy & Hall).
  rewrite Forall_forall in Hall. pose proof (Hall _ Hq) as Hyq. simpl in Hyq.
  assert (y ∈ row) as Hyin by (by eapply list_elem_of_lookup_2).
  destruct y as [va| | |]; simpl in Hyq; try done.
  destruct (nanmin_row_spec row) as [[_ Hnan]|(Hin & Hnn & Hmin)].
  { rewrite Forall_forall in Hnan. by specialize (Hnan _ Hq). }
  rewrite Forall_forall in Hmin.
  destruct (Hmin _ Hyin) as [?|Hlt]; [done|].
  pose proof (Hall _ Hin) as Hle.
  destruct (nanmin_row row) as [qm| | |] eqn:Em; try done.
  simpl in Hlt, Hle. apply negb_false_iff in Hlt.
  apply Qle_bool_iff in Hlt, Hle.
  eapply elem_of_all_argmin_2; [done|done|]. rewrite Em. simpl.
  apply negb_true_iff. destruct (Qle_bool t (Qabs (va - qm))) eqn:E; [|done].
  apply Qle_bool_iff in E. exfalso.
  assert (va == qm)%Q as Heq by (by apply Qle_antisym).
  assert (Qabs (va - qm) == 0)%Q as H0.
  { rewrite (Qabs_wd (va - qm) 0); [done|]. rewrite Heq. ring. }
  rewrite H0 in E. by apply Qle_not_lt in E.
Qed.

Lemma default_choice_among_all_minima_witness :
  (0, 1) ∈ all_argmin [[PInf; Fin 1; Fin 1]] default_tol.
Proof.
  apply (default_choice_among_all_minima [[PInf; Fin 1; Fin 1]] (1 # 1000) 0 1
           [PInf; Fin 1; Fin 1] 1%Q).
  - reflexivity.
  - reflexivity.
  - right. left.
  - rewrite !elem_of_cons, elem_of_nil.
    intros [?|[?|[?|[]]]]; discriminate.
  - reflexivity.
Defined.

(** ** When the estimator returns *)

Lemma rmap_total {A B} (f : A → result B) (l : list A) :
  Forall (fun a => ∃ b, f a = Ok b) l → ∃ bs, rmap f l = Ok bs.
Proof.
  induction 1 as [|a l [b Hb] _ [bs Hbs]]; simpl; [by eexists|].
  rewrite Hb. unfold mbind, result_bind, rbind. rewrite Hbs. by eexists.
Qed.

Lemma take_columns_total {A} (X : matrix A) (cols : list nat) (m : nat) :
  Forall (fun r => length r = m) X → Forall (fun c => c < m) cols →
  ∃ _X, take_columns X cols = Ok _X.
Proof.
  intros HX Hc. unfold take_columns. apply rmap_total.
  eapply Forall_impl; [exact HX|]. intros r Hr. apply rmap_total.
  eapply Forall_impl; [exact Hc|]. intros c Hlt. simpl in *.
  assert (c < length r) as Hlt' by lia.
  destruct (lookup_lt_is_Some_2 r c Hlt') as [v ->]. by eexists.
Qed.

Lemma ts_leb_refl (t : Timestamp) : ts_leb t t = true.
Proof.
  unfold ts_leb. rewrite Z.eqb_refl. simpl.
  rewrite (proj2 (Z.leb_le _ _) (Z.le_refl _)). apply orb_true_r.
Qed.

Lemma nanargmin_row_total (row : list float64) (v : float64) :
  v ∈ row → isnan v = false → ∃ a, nanargmin_row row = Ok a.
Proof.
  intros Hin Hv. unfold nanargmin_row.
  assert (forallb isnan row = false) as ->.
  { apply not_true_iff_false. intros H.
    rewrite forallb_forall in H. apply list_elem_of_In in Hin.
    rewrite (H _ Hin) in Hv. done. }
  rewrite andb_false_r.
  destruct row as [|x l]; [by apply elem_of_nil in Hin|]. simpl. by eexists.
Qed.

Lemma masked_diagonal ti (n : nat) (D dm : matrix float64) :
  square n D → masked ti D = Ok dm → ∀ i, i < n → cell dm i i = Some PInf.
Proof.
  intros Hs H i Hi.
  destruct (proj2 (square_cell n D i i Hs) (conj Hi Hi)) as [d Hd].
  destruct (square_masked ti n D dm Hs H) as [_ Htl].
  unfold masked in H. destruct ti as [tl|].
  - unfold mask_nan in H. destruct (_ =? _); [|done]. injection H as <-.
    rewrite cell_zip_with, cell_causal_mask, cell_fill_diagonal, Hd.
    specialize (Htl tl eq_refl).
    destruct (lookup_lt_is_Some_2 tl i ltac:(lia)) as [t ->]. simpl.
    rewrite ts_leb_refl. by destruct (decide (i = i)).
  - injection H as <-. rewrite cell_fill_diagonal, Hd. simpl.
    by destruct (decide (i = i)).
Qed.

Lemma masked_total ti (n : nat) (D : matrix float64) :
  square n D → (∀ tl, ti = Some tl → length tl = n) → ∃ dm, masked ti D = Ok dm.
Proof.
  intros Hs Htl. unfold masked. destruct ti as [tl|]; [|by eexists].
  unfold mask_nan.
  destruct (square_fill_diagonal PInf n D Hs) as [Hl _].
  unfold causal_mask. rewrite length_map, (Htl tl eq_refl), Hl, Nat.eqb_refl.
  by eexists.
Qed.

Lemma credit_total (n : nat) (am : bool) (nb : matrix nat)
    (dm : matrix float64) :
  square n dm → (∀ i, i < n → cell dm i i = Some PInf) →
  ∃ nb', credit n am nb dm = Ok nb'.
Proof.
  intros [Hl _] Hdiag. unfold credit. destruct am; [by eexists|].
  unfold nanargmin.
  destruct (rmap_total nanargmin_row dm) as [args Hargs].
  { apply Forall_lookup. intros i row Hrow.
    assert (i < n) as Hi by (rewrite <- Hl; by eapply lookup_lt_Some).
    specialize (Hdiag i Hi). unfold cell in Hdiag. rewrite Hrow in Hdiag.
    simpl in Hdiag. apply (nanargmin_row_total row PInf); [|done].
    by eapply list_elem_of_lookup_2. }
  unfold mbind, result_bind, rbind. rewrite Hargs. by eexists.
Qed.

Section EstimatorReturns.
Context {feat rng_state : Type}.
Variable metric : list feat -> list feat -> float64.
Variable randint : Z -> Z -> rng_state -> result (list nat) * rng_state.

Lemma dist_fn_total gp ti gb (_X : matrix feat) :
  _X ≠ [] → Forall (fun r => r ≠ []) _X →
  (gp = true → ∃ tl, ti = Some tl ∧ length tl = length _X) →
  ∃ D, dist_fn metric gp ti gb _X = Ok D.
Proof.
  intros Hne Hall Hgp. unfold dist_fn. destruct gp.
  - destruct (Hgp eq_refl) as (tl & -> & Hl).
    unfold time_grouped_pairwise_distances.
    apply (rfold_grouped_total metric _X (map (bucket gb) tl)
             (np_unique (map (bucket gb) tl))
             (fun y => proj1 (elem_of_np_unique y _))
             ltac:(by rewrite length_map) Hall).
  - unfold pairwise_distances, mbind, result_bind, rbind.
    assert (check_array _X = Ok tt) as ->.
    { apply check_array_Ok. destruct _X as [|r0 A']; [done|].
      exists r0, A'. split; [done|]. by apply Forall_cons in Hall as [? _]. }
    by eexists.
Qed.

Lemma tally_step_total X ti am gp gb nb cols (m : nat) :
  X ≠ [] → Forall (fun r => length r = m) X →
  cols ≠ [] → Forall (fun c => c < m) cols →
  (∀ tl, ti = Some tl → length tl = length X) → (gp = true → is_Some ti) →
  ∃ nb', tally_step metric X ti am gp gb nb cols = Ok nb'.
Proof.
  intros HX Hrect Hcols Hlt Htl Hgp.
  rewrite tally_step_eq. unfold mbind, result_bind, rbind.
  destruct (take_columns_total X cols m Hrect Hlt) as [_X EX]. rewrite EX.
  apply take_columns_shape in EX as [HlX Hshape].
  assert (_X ≠ []) as HX' by (destruct _X, X; done).
  assert (Forall (fun r => r ≠ []) _X) as Hall.
  { eapply Forall_impl; [exact Hshape|]. intros r Hr ->. by destruct cols. }
  destruct (dist_fn_total gp ti gb _X HX' Hall) as [D ED].
  { intros E. destruct (Hgp E) as [tl ->]. exists tl. split; [done|].
    rewrite HlX. by apply Htl. }
  rewrite ED.
  pose proof (square_dist_fn metric _ _ _ _ _ ED) as HsD. rewrite HlX in HsD.
  destruct (masked_total ti (length X) D HsD Htl) as [dm EM]. rewrite EM.
  apply credit_total.
  - by destruct (square_masked ti _ D dm HsD EM).
  - by apply (masked_diagonal ti _ D dm).
Qed.

Lemma bootstrap_loop_total X ti am gp gb (m : nat) ss k :
  X ≠ [] → Forall (fun r => length r = m) X →
  draws_columns randint (Z.of_nat m) ss →
  (∀ tl, ti = Some tl → length tl = length X) → (gp = true → is_Some ti) →
  ∀ nb (w : @world rng_state),
    ∃ nb' w',
      bootstrap_loop metric randint X ti am gp gb (Z.of_nat m) ss k nb w
      = (Ok nb', w').
Proof.
  intros HX Hrect Hdraw Htl Hgp.
  induction k as [|k IH]; intros nb w; simpl; [by eexists _, _|].
  unfold iteration.
  destruct (Hdraw (rng w)) as (cols & g' & -> & Hne & Hlt).
  unfold mbind, result_bind, rbind.
  assert (Forall (fun c => c < m) cols) as Hlt'.
  { eapply Forall_impl; [exact Hlt|]. intros c Hc. simpl in Hc. lia. }
  destruct (tally_step_total X ti am gp gb nb cols m HX Hrect Hne Hlt' Htl Hgp)
    as [nb1 ->].
  apply IH.
Qed.

(** X25.  [bootstrap_neighbors] returns a matrix, whatever the metric
    and the mode, when [X] is a rectangular array with at least one row, the
    generator delivers a non-empty sample of columns of [X] at every
    iteration, the time index, if given, has one entry per row, and a time
    index is given when [grouped_pairwise] is set.  In particular the default
    selection never meets an all-NaN row: the diagonal keeps its [inf]. *)
Theorem bootstrap_neighbors_returns X ti sigma sample_prop n_iter rd am gp gb
    (w : @world rng_state) (m : nat) :
  X ≠ [] → Forall (fun r => length r = m) X →
  draws_columns randint (Z.of_nat m)
    (Qtrunc (inject_Z (Z.of_nat m) * sample_prop)) →
  (∀ tl, ti = Some tl → length tl = length X) → (gp = true → is_Some ti) →
  ∃ F w',
    bootstrap_neighbors metric randint X ti sigma sample_prop n_iter rd am gp
      gb w = (Ok F, w').
Proof.
  intros HX Hrect Hdraw Htl Hgp. unfold bootstrap_neighbors.
  assert (length (hd [] X) = m) as ->.
  { destruct X as [|r X']; [done|]. by apply Forall_cons in Hrect as [? _]. }
  destruct (bootstrap_loop_total X ti am gp gb m _ n_iter HX Hrect Hdraw Htl Hgp
              (zeros 0 (length X) (length X)) w) as (nb & w' & ->).
  by eexists _, _.
Qed.
End EstimatorReturns.

Lemma counter_randint_draws : draws_columns counter_randint 2 1.
Proof.
  intros g. exists [(g + 0) mod 2], (g + 1). split; [reflexivity|].
  split; [done|]. constructor; [|constructor].
  pose proof (Nat.mod_upper_bound (g + 0) 2 ltac:(lia)). lia.
Qed.

Lemma bootstrap_neighbors_returns_witness :
  ∃ F w',
    bootstrap_neighbors cityblock counter_randint [[1; 5]; [2; 7]]%Z
      (Some [y2000; y2001]) half (1 # 2) 3 false false true 5%Z w0
    = (Ok F, w').
Proof.
  apply (bootstrap_neighbors_returns cityblock counter_randint
           [[1; 5]; [2; 7]]%Z (Some [y2000; y2001]) half (1 # 2) 3 false false
           true 5%Z w0 2).
  - discriminate.
  - repeat constructor.
  - exact counter_randint_draws.
  - intros tl [= <-]. reflexivity.
  - intros _. by eexists.
Defined.

(** ** When the grouped distances are returned *)

Section GroupedReturns.
Context {feat : Type}.
Variable metric : list feat -> list feat -> float64.

(** X26.  [time_grouped_pairwise_distances] returns a matrix whenever the
    time index has one entry per row of [X] and every row of [X] has at least
    one feature; on an empty time index it returns the all-zero matrix
    without looking at [X]. *)
Theorem time_grouped_returns (X : matrix feat) (tl : list Timestamp) (gb : Z) :
  (length tl = length X → Forall (fun r => r ≠ []) X →
   ∃ D, time_grouped_pairwise_distances metric X (Some tl) gb = Ok D)
  ∧ time_grouped_pairwise_distances metric X (Some []) gb
    = Ok (zeros fzero (length X) (length X)).
Proof.
  split; [|done]. intros Hl Hall. unfold time_grouped_pairwise_distances.
  apply (rfold_grouped_total metric X (map (bucket gb) tl)
           (np_unique (map (bucket gb) tl))
           (fun y => proj1 (elem_of_np_unique y _))
           ltac:(by rewrite length_map) Hall).
Qed.
End GroupedReturns.

Lemma time_grouped_returns_witness :
  ∃ D, time_grouped_pairwise_distances cityblock [[1; 5]; [2; 7]]%Z
         (Some [y2001; y2000]) 5 = Ok D.
Proof.
  apply (proj1 (time_grouped_returns cityblock [[1; 5]; [2; 7]]%Z
                  [y2001; y2000] 5)).
  - reflexivity.
  - repeat constructor; discriminate.
Defined.

(** ** When the evolving graphs are returned *)

Lemma filter_all {A} (P : A → Prop) `{∀ x, Decision (P x)} (l : list A) :
  (∀ x, x ∈ l → P x) → filter P l = l.
Proof.
  induction l as [|x l IH]; intros Hl; [done|].
  rewrite filter_cons_True by (apply Hl; set_solver).
  f_equal. apply IH. intros y Hy. apply Hl. set_solver.
Qed.

(** Splitting a list by the distinct keys of a key set loses no element
    and repeats none. *)
Lemma length_filter_keys {A} (kf : A → Z) (l : list A) (U : list Z) :
  NoDup U →
  length (concat (map (fun key => filter (fun r => kf r = key) l) U))
  = length (filter (fun r => kf r ∈ U) l).
Proof.
  induction 1 as [|k U Hk _ IH]; simpl.
  - rewrite filter_none; [done|]. intros x _. apply not_elem_of_nil.
  - rewrite length_app, IH. clear IH.
    induction l as [|x l IHl]; [done|].
    rewrite !filter_cons.
    destruct (decide (kf x = k)) as [Ek|Ek].
    + rewrite decide_False by (by rewrite Ek).
      rewrite decide_True by (rewrite Ek; by left). simpl. lia.
    + destruct (decide (kf x ∈ U)) as [Eu|Eu].
      * rewrite decide_True by (by right). simpl. lia.
      * rewrite decide_False by (rewrite elem_of_cons; tauto). done.
Qed.

Lemma sorted_lt_NoDup (l : list Z) : StronglySorted Z.lt l → NoDup l.
Proof.
  induction 1 as [|z l _ IH Hz]; constructor; [|done].
  intros Hin. rewrite Forall_forall in Hz. specialize (Hz _ Hin). lia.
Qed.

Lemma length_group_frame {A} (groupby : Timestamp → Z)
    (df : list (Timestamp * A)) :
  length (concat (map snd (group_frame groupby df))) = length df.
Proof.
  unfold group_frame. rewrite map_map. simpl.
  rewrite (concat_map_inner snd
             (fun key => filter (fun r => groupby r.1 = key) df)).
  rewrite length_map, length_filter_keys.
  - rewrite filter_all; [done|]. intros x Hx.
    apply elem_of_np_unique, list_elem_of_fmap. by exists x.
  - apply sorted_lt_NoDup, np_unique_sorted.
Qed.

Lemma length_sort_index {A} (df : list (Timestamp * A)) :
  length (sort_index df) = length df.
Proof.
  assert (∀ (x : Timestamp * A) l,
            length (insert_by_time x l) = S (length l)) as Hins.
  { intros x l. induction l as [|y l IH]; simpl; [done|].
    destruct (ts_leb _ _); simpl; [done|]. by rewrite IH. }
  induction df as [|x df IH]; simpl; [done|]. by rewrite Hins, IH.
Qed.

Lemma evolve_groups_total time_index sigma
    (groups : list (Z * matrix float64)) :
  ∀ st,
    st.1 + length (concat (map snd groups)) ≤ length time_index →
    Forall (fun g => Forall (fun r => length r ≤ length time_index) g.2)
           groups →
    ∃ ys, evolve_groups time_index sigma groups st = Ok ys.
Proof.
  induction groups as [|[gid stories] groups IH]; intros [i G] Hlen Hrows;
    cbn [evolve_groups]; [by eexists|].
  apply Forall_cons in Hrows as [Hs Hrows].
  simpl in Hlen, Hs. rewrite length_app in Hlen.
  rewrite evolve_rows_to_graph_rows. unfold mbind, result_bind, rbind.
  destruct (to_graph_rows_total (TIndex time_index) sigma (length time_index)
              stories (covers_TIndex _ _ (Nat.le_refl _)) Hs i G ltac:(lia))
    as [G' ->].
  destruct (IH (i + length stories, G')) as [ys ->]; [simpl; lia|done|].
  by eexists.
Qed.

(** X27.  [evolving_graphs] yields all its graphs without raising
    whenever the matrix has one row per entry of the time index and no row
    has more columns than the time index has entries. *)
Theorem evolving_graphs_returns (choices : matrix float64)
    (time_index : list Timestamp) (groupby : Timestamp → Z) (sigma : float64) :
  length choices = length time_index →
  Forall (fun r => length r ≤ length time_index) choices →
  ∃ Gs, evolving_graphs choices time_index groupby sigma = Ok Gs.
Proof.
  intros Hl Hrows. unfold evolving_graphs. rewrite Hl, Nat.eqb_refl.
  apply evolve_groups_total.
  - simpl. rewrite length_group_frame, length_sort_index, length_zip. lia.
  - unfold group_frame. apply Forall_fmap, Forall_forall. intros key _. simpl.
    apply Forall_fmap, Forall_forall. intros [t row] Hin. simpl.
    apply list_elem_of_filter in Hin as [_ Hin].
    apply (proj1 (elem_of_sort_index _ _)) in Hin.
    apply elem_of_zip_r in Hin. rewrite Forall_forall in Hrows.
    by apply Hrows.
Qed.

Lemma evolving_graphs_returns_witness :
  ∃ Gs, evolving_graphs [[fzero; fone]; [fzero; fzero]] [y2001; y2000] year
          half = Ok Gs.
Proof.
  apply evolving_graphs_returns; [reflexivity|].
  repeat constructor.
Defined.
